(** * DeepPhysX.Sofa: sample extraction, prediction write-back and launcher

    A shallow embedding of

    - [examples/demos/Liver/FC/Environment/LiverTraining.py]   (module [FC]),
    - [examples/demos/Liver/UNet/Environment/LiverTraining.py] (module [UNet]),
    - [src/Environment/launcherSofaEnvironment.py]             (module [Launcher]).

    Node arrays are numpy arrays of shape [(n, 3)] and dtype [double]: they are
    lists of [vec3] over the kernel's binary64 floats, so the zero-magnitude
    test of the grid variant is the IEEE one.  Python exceptions are an error
    monad; the mutable environment object is an explicit record that
    [apply_prediction] threads. *)

From Stdlib Require Import Floats ZArith String Ascii Lia.
From stdpp Require Import base list relations.

(** ** Python exceptions as an error monad *)

Module Py.

Inductive exn : Type :=
| IndexError
| ValueError
| TypeError
| OutOfBounds
| ImportError
| SyntaxError
| Other (class_name : string).

Inductive result (A : Type) : Type :=
| Ok (a : A)
| Raise (e : exn).

Arguments Ok {A} a.
Arguments Raise {A} e.

Definition bind {A B : Type} (m : result A) (k : A -> result B) : result B :=
  match m with
  | Ok a => k a
  | Raise e => Raise e
  end.

Notation "'let*' x ':=' m 'in' k" := (bind m (fun x => k))
  (at level 10, x name, m at level 100, k at level 200).

(** A [for] loop whose body may raise: the accumulator is the mutated object. *)
Fixpoint for_each {A S : Type} (body : S -> A -> result S) (l : list A) (s : S)
  : result S :=
  match l with
  | [] => Ok s
  | a :: l' => let* s' := body s a in for_each body l' s'
  end.

End Py.

Import Py.

(** ** The fragment of numpy used by the environments *)

Module Numpy.

Record vec3 : Type := V3 { vx : float; vy : float; vz : float }.

(** An array of shape [(n, 3)], dtype [double]. *)
Abbreviation array := (list vec3).

(** The shape tuple [(n, 3)] of a node array is kept as its row count [n]. *)
Abbreviation shape := nat (only parsing).

Definition shape_of (a : array) : shape := length a.

(** [product(shape)], the length of the flattened array. *)
Definition size_of (sh : shape) : nat := sh * 3.

Definition zero3 : vec3 := V3 0 0 0.

Definition add3 (a b : vec3) : vec3 :=
  V3 (vx a + vx b) (vy a + vy b) (vz a + vz b).

Definition sub3 (a b : vec3) : vec3 :=
  V3 (vx a - vx b) (vy a - vy b) (vz a - vz b).

(** [numpy.zeros(shape, dtype=double)] *)
Definition zeros (sh : shape) : array := replicate sh zero3.

(** [numpy.linalg.norm(v)] of a 1-D array: [sqrt(v.dot(v))]. *)
Definition norm (v : vec3) : float :=
  PrimFloat.sqrt (vx v * vx v + vy v * vy v + vz v * vz v).

(** [a[i]] for a non-negative integer [i]. *)
Definition getitem (a : array) (i : nat) : result vec3 :=
  match a !! i with
  | Some v => Ok v
  | None => Raise IndexError
  end.

(** [a[i] = v] for a non-negative integer [i]; stdpp's insert is silent out
    of range where numpy raises. *)
Definition setitem (a : array) (i : nat) (v : vec3) : result array :=
  if i <? length a then Ok (<[i := v]> a) else Raise IndexError.

(** Broadcasting of a [(m, 3)] operand against [k] rows: [m = k], or [m = 1]. *)
Definition broadcast_to (k : nat) (vals : array) : result array :=
  if length vals =? k then Ok vals
  else match vals with
       | [v] => Ok (replicate k v)
       | _ => Raise ValueError
       end.

(** Assignments of an index array, in order: a repeated index keeps the last
    value assigned. *)
Fixpoint assign (a : array) (idx : list nat) (vals : array) : array :=
  match idx, vals with
  | i :: idx', v :: vals' => assign (<[i := v]> a) idx' vals'
  | _, _ => a
  end.

(** [a[idx] = vals] for an integer index array [idx]. *)
Definition setitem_fancy (a : array) (idx : list nat) (vals : array)
  : result array :=
  let* vals' := broadcast_to (length idx) vals in
  if forallb (fun i => i <? length a) idx
  then Ok (assign a idx vals')
  else Raise IndexError.

(** [a[idx]] for an integer index array [idx]. *)
Fixpoint take (a : array) (idx : list nat) : result array :=
  match idx with
  | [] => Ok []
  | i :: idx' =>
      let* v := getitem a i in
      let* rest := take a idx' in
      Ok (v :: rest)
  end.

(** An element-wise binary operation on two [(_, 3)] arrays, with numpy's
    broadcasting of a one-row operand. *)
Definition elementwise (op : vec3 -> vec3 -> vec3) (a b : array)
  : result array :=
  if length a =? length b then Ok (zip_with op a b)
  else match a, b with
       | [x], _ => Ok (map (op x) b)
       | _, [y] => Ok (map (fun x => op x y) a)
       | _, _ => Raise ValueError
       end.

(** [a - b], [numpy.subtract(a, b)] *)
Definition subtract (a b : array) : result array := elementwise sub3 a b.

(** [a + b] *)
Definition add (a b : array) : result array := elementwise add3 a b.

Fixpoint rows_of (flat : list float) (n : nat) {struct n} : array :=
  match n, flat with
  | S n', x :: y :: z :: flat' => V3 x y z :: rows_of flat' n'
  | _, _ => []
  end.

(** [numpy.reshape(flat, (n, 3))] of a flat array. *)
Definition reshape (flat : list float) (sh : shape) : result array :=
  if length flat =? size_of sh then Ok (rows_of flat sh) else Raise ValueError.

(** [a.flatten()]: the row-major flat view a prediction is sent as. *)
Fixpoint flatten (a : array) : list float :=
  match a with
  | [] => []
  | v :: a' => vx v :: vy v :: vz v :: flatten a'
  end.

End Numpy.

Import Numpy.

(** ** Node collections of the simulation engine *)

Module Sofa.

(** A mechanical object exposes its [position] and [rest_position] data. *)
Record MechanicalObject : Type := {
  position : array;
  rest_position : array
}.

Definition set_position (mo : MechanicalObject) (p : array) : MechanicalObject :=
  {| position := p; rest_position := rest_position mo |}.

End Sofa.

Import Sofa.

(** ** The grid-remapped environment (UNet demo) *)

Module UNet.

(** A constant force field: the node [indices] it acts on and its [force]. *)
Record ForceField : Type := {
  indices : list nat;
  force : vec3
}.

(** The regular grid's queries are the engine's; a point outside the lattice
    makes [cell_index_containing] fail. *)
Record RegularGrid : Type := {
  cell_index_containing : vec3 -> result nat;
  node_indices_of : nat -> list nat
}.

(** The attributes of the environment object read or written by the three
    operations.  The scene set-up that fills them ([LiverSofa]) is not part of
    the sources, so they are fields of the state. *)
Record LiverTraining : Type := {
  create_model_fem : bool;
  f_surface_mo : MechanicalObject;
  n_surface_mo : MechanicalObject;
  f_sparse_grid_mo : MechanicalObject;
  n_sparse_grid_mo : MechanicalObject;
  force_field : list ForceField;
  regular_grid : RegularGrid;
  nb_nodes_regular_grid : nat;
  data_size : shape;
  idx_sparse_to_regular : list nat;
  regular_grid_rest_shape : array
}.

(** [if node < self.nb_nodes_regular_grid and norm(F[node]) == 0.: F[node] = force] *)
Definition encode_node (nb : nat) (f : vec3) (F : array) (node : nat)
  : result array :=
  if node <? nb then
    let* v := getitem F node in
    if PrimFloat.eqb (norm v) 0 then setitem F node f else Ok F
  else Ok F.

(** The body of [for i in force_field.indices.value]. *)
Definition encode_index (s : LiverTraining) (surface_mo : MechanicalObject)
    (ff : ForceField) (F : array) (i : nat) : result array :=
  let* p := getitem (rest_position surface_mo) i in
  let* cell := cell_index_containing (regular_grid s) p in
  for_each (encode_node (nb_nodes_regular_grid s) (force ff))
           (node_indices_of (regular_grid s) cell) F.

(** The body of [for force_field in self.force_field]. *)
Definition encode_field (s : LiverTraining) (surface_mo : MechanicalObject)
    (F : array) (ff : ForceField) : result array :=
  for_each (encode_index s surface_mo ff) (indices ff) F.

Definition surface_of (s : LiverTraining) : MechanicalObject :=
  if create_model_fem s then f_surface_mo s else n_surface_mo s.

Definition compute_input (s : LiverTraining) : result array :=
  let F := zeros (data_size s) in
  let surface_mo := surface_of s in
  for_each (encode_field s surface_mo) (force_field s) F.

Definition compute_output (s : LiverTraining) : result array :=
  let actual_positions_on_regular_grid := zeros (data_size s) in
  let* actual_positions_on_regular_grid :=
    setitem_fancy actual_positions_on_regular_grid
                  (idx_sparse_to_regular s) (position (f_sparse_grid_mo s)) in
  subtract actual_positions_on_regular_grid (regular_grid_rest_shape s).

Definition set_n_sparse_position (s : LiverTraining) (p : array) : LiverTraining :=
  {| create_model_fem := create_model_fem s;
     f_surface_mo := f_surface_mo s;
     n_surface_mo := n_surface_mo s;
     f_sparse_grid_mo := f_sparse_grid_mo s;
     n_sparse_grid_mo := set_position (n_sparse_grid_mo s) p;
     force_field := force_field s;
     regular_grid := regular_grid s;
     nb_nodes_regular_grid := nb_nodes_regular_grid s;
     data_size := data_size s;
     idx_sparse_to_regular := idx_sparse_to_regular s;
     regular_grid_rest_shape := regular_grid_rest_shape s |}.

Definition apply_prediction (s : LiverTraining) (prediction : list float)
  : result LiverTraining :=
  let* U := reshape prediction (data_size s) in
  let* U_sparse := take U (idx_sparse_to_regular s) in
  let* p := add (rest_position (n_sparse_grid_mo s)) U_sparse in
  Ok (set_n_sparse_position s p).

End UNet.

(** ** The coincident-representation environment (FC demo) *)

Module FC.

(** A constant force field: the node [indices] it acts on and one entry of
    [forces] per index. *)
Record ForceField : Type := {
  indices : list nat;
  forces : array
}.

(** [input_size] and [output_size] are [None] from the constructor until the
    initialisation event. *)
Record LiverTraining : Type := {
  n_surface_mo : MechanicalObject;
  f_sparse_grid_mo : MechanicalObject;
  n_sparse_grid_mo : MechanicalObject;
  force_field : list ForceField;
  input_size : option shape;
  output_size : option shape
}.

Definition onSimulationInitDoneEvent (s : LiverTraining) : LiverTraining :=
  {| n_surface_mo := n_surface_mo s;
     f_sparse_grid_mo := f_sparse_grid_mo s;
     n_sparse_grid_mo := n_sparse_grid_mo s;
     force_field := force_field s;
     input_size := Some (shape_of (position (n_surface_mo s)));
     output_size := Some (shape_of (position (n_sparse_grid_mo s))) |}.

(** The shape handed to [zeros].  [zeros(None)] is no array of rows (it is
    refused, or is a 0-dimensional array that the first indexed assignment
    refuses, by NumPy version); the embedding, whose arrays have rows, raises
    there. *)
Definition declared (sz : option shape) : result shape :=
  match sz with
  | Some sh => Ok sh
  | None => Raise TypeError
  end.

(** What [reshape(prediction, self.output_size)] gives: rows of the declared
    shape or, while [output_size] is still [None], the prediction as it came,
    which is flat. *)
Inductive reshaped : Type :=
| Rows (U : array)
| Flat (values : list float).

Definition reshape_declared (prediction : list float) (sz : option shape)
  : result reshaped :=
  match sz with
  | Some sh => let* U := reshape prediction sh in Ok (Rows U)
  | None => Ok (Flat prediction)
  end.

(** [rest + U].  A flat [U] broadcasts along the rows when it has three
    entries, or one. *)
Definition add_reshaped (rest : array) (U : reshaped) : result array :=
  match U with
  | Rows U => add rest U
  | Flat [x; y; z] => Ok (map (fun r => add3 r (V3 x y z)) rest)
  | Flat [x] => Ok (map (fun r => add3 r (V3 x x x)) rest)
  | Flat _ => Raise ValueError
  end.

(** The body of [for cff in self.force_field]. *)
Definition scatter_field (F : array) (cff : ForceField) : result array :=
  setitem_fancy F (indices cff) (forces cff).

Definition compute_input (s : LiverTraining) : result array :=
  let* sh := declared (input_size s) in
  let F := zeros sh in
  for_each scatter_field (force_field s) F.

Definition compute_output (s : LiverTraining) : result array :=
  subtract (position (f_sparse_grid_mo s)) (rest_position (f_sparse_grid_mo s)).

Definition set_n_sparse_position (s : LiverTraining) (p : array) : LiverTraining :=
  {| n_surface_mo := n_surface_mo s;
     f_sparse_grid_mo := f_sparse_grid_mo s;
     n_sparse_grid_mo := set_position (n_sparse_grid_mo s) p;
     force_field := force_field s;
     input_size := input_size s;
     output_size := output_size s |}.

Definition apply_prediction (s : LiverTraining) (prediction : list float)
  : result LiverTraining :=
  let* U := reshape_declared prediction (output_size s) in
  let* p := add_reshaped (rest_position (n_sparse_grid_mo s)) U in
  Ok (set_n_sparse_position s p).

End FC.

(** ** The launcher script *)

Module Launcher.

Open Scope string_scope.

(** A slice bound against a sequence of length [n]: a negative bound counts
    from the end, and both are clipped to [0 .. n]. *)
Definition slice_bound (n : nat) (i : Z) : nat :=
  if (i <? 0)%Z then Z.to_nat (Z.max (i + Z.of_nat n) 0)
  else Nat.min (Z.to_nat i) n.

(** [s[start:stop]] *)
Definition slice (start stop : Z) (s : string) : string :=
  let n := String.length s in
  let a := slice_bound n start in
  let b := slice_bound n stop in
  substring a (b - a) s.

(** [s.split(sep)] for a non-empty separator: the pieces between the
    occurrences of [sep], found from the left.  [skip] counts the characters
    of a matched separator still to pass over, [piece] is the piece so far. *)
Fixpoint split_from (sep : string) (skip : nat) (piece : string) (s : string)
  : list string :=
  match s with
  | EmptyString => [piece]
  | String c s' =>
      match skip with
      | S k => split_from sep k piece s'
      | O =>
          if String.prefix sep s
          then piece :: split_from sep (String.length sep - 1) EmptyString s'
          else split_from sep 0 (piece ++ String c EmptyString) s'
      end
  end.

Definition split (sep : string) (s : string) : list string :=
  split_from sep 0 EmptyString s.

(** The keyword arguments of [TcpIpClient(...)]. *)
Record ClientArgs : Type := {
  ip_address : string;
  port : Z;
  instance_id : Z;
  instance_nb : Z;
  visualization_db : option (list string)
}.

(** What the script takes from outside: [os.sep], [os.path.dirname], the
    built-in [int], and how its collaborators answer: the import that [exec]
    runs for a module and class name, and the client's constructor,
    [initialize()] and [launch()].  Each of these may raise. *)
Record Host : Type := {
  sep : ascii;
  dirname : string -> string;
  int : string -> result Z;
  import_from : string -> string -> result unit;
  new_client : ClientArgs -> result unit;
  initialize : ClientArgs -> result unit;
  launch : ClientArgs -> result unit
}.

(** The effects of a run, in order: what was printed and which calls were
    made.  A call that raises is the last event of its run. *)
Inductive event : Type :=
| Print (line : string)
| PathAppend (dir : string)
| ImportEnvironment (module_name class_name : string)
| NewClient (ip : string) (port_number id nb : Z)
            (db : option (list string))
| ClientInitialize
| ClientLaunch.

(** How a run ends: [exit(code)], the end of the script, or an exception
    nothing catches. *)
Inductive ending : Type :=
| Exit (code : Z)
| Done
| Uncaught (e : exn).

Definition usage (argv0 : string) : string :=
  "Usage: python3 " ++ argv0 ++
  " <file_path> <environment_class> <ip_address> <port> <instance_id> " ++
  "<max_instance_count> <visu_db>".

(** [argv[1].split(sep)[-1][:-3]] *)
Definition module_name_of (host : Host) (file_path : string) : string :=
  slice 0 (-3) (List.last (split (String (sep host) EmptyString) file_path)
                          EmptyString).

(** [None if argv[7] == 'None' else [s[1:-1] for s in argv[7][1:-1].split(', ')]] *)
Definition parse_visualization_db (arg : string) : option (list string) :=
  if String.eqb arg "None" then None
  else Some (map (slice 1 (-1)) (split ", " (slice 1 (-1) arg))).

Definition shutdown_notice (ip_address : string) : string :=
  "[launcherSofaEnvironment] Shutting down client " ++ ip_address.

(** The script body under [if __name__ == '__main__'].  The module-level
    imports of the library's base classes come before the body and are not
    part of it.  Arguments are sequences of characters; for ASCII arguments
    these are Python's code points. *)
Definition main (host : Host) (argv : list string) : list event * ending :=
  if negb (Nat.eqb (length argv) 8) then
    match argv !! 0 with
    | Some argv0 => ([Print (usage argv0)], Exit 1)
    | None => ([], Uncaught IndexError)
    end
  else
    match argv with
    | [_; a1; a2; a3; a4; a5; a6; a7] =>
        let importing :=
          [PathAppend (dirname host a1);
           ImportEnvironment (module_name_of host a1) a2] in
        match import_from host (module_name_of host a1) a2 with
        | Raise e => (importing, Uncaught e)
        | Ok _ =>
            let db := parse_visualization_db a7 in
            let numbers :=
              let* p := int host a4 in
              let* i := int host a5 in
              let* n := int host a6 in
              Ok (p, i, n) in
            match numbers with
            | Raise e => (importing, Uncaught e)
            | Ok (p, i, n) =>
                let client :=
                  {| ip_address := a3; port := p; instance_id := i;
                     instance_nb := n; visualization_db := db |} in
                let constructing := app importing [NewClient a3 p i n db] in
                match new_client host client with
                | Raise e => (constructing, Uncaught e)
                | Ok _ =>
                    match initialize host client with
                    | Raise e =>
                        (app constructing [ClientInitialize], Uncaught e)
                    | Ok _ =>
                        match launch host client with
                        | Raise e =>
                            (app constructing [ClientInitialize; ClientLaunch],
                             Uncaught e)
                        | Ok _ =>
                            (app constructing
                               [ClientInitialize; ClientLaunch;
                                Print (shutdown_notice a3)], Done)
                        end
                    end
                end
            end
        end
    | _ => ([], Uncaught IndexError)
    end.

End Launcher.

(** * Properties *)

(** ** Loops *)

Section ForEach.
Context {A S : Type} (body : S -> A -> result S).

Lemma for_each_cons a l s s' :
  for_each body (a :: l) s = Ok s' ->
  exists s1, body s a = Ok s1 /\ for_each body l s1 = Ok s'.
Proof.
  simpl. destruct (body s a) as [s1|e]; simpl; [eauto | discriminate].
Qed.

Lemma for_each_app l1 l2 s s' :
  for_each body (l1 ++ l2) s = Ok s' ->
  exists s1, for_each body l1 s = Ok s1 /\ for_each body l2 s1 = Ok s'.
Proof.
  revert s. induction l1 as [|a l1 IH]; intros s H.
  - exists s. split; [reflexivity | exact H].
  - rewrite <- app_comm_cons in H.
    apply for_each_cons in H as (s1 & Ha & Hrest).
    apply IH in Hrest as (s2 & H1 & H2).
    exists s2. split; [|exact H2]. simpl. rewrite Ha. exact H1.
Qed.

(** A property every iteration preserves holds after the loop. *)
Lemma for_each_invariant (P : S -> Prop) l :
  (forall s a s', a ∈ l -> P s -> body s a = Ok s' -> P s') ->
  forall s s', P s -> for_each body l s = Ok s' -> P s'.
Proof.
  induction l as [|a l IH]; intros Hstep s s' HP H.
  - simpl in H. congruence.
  - apply for_each_cons in H as (s1 & Ha & Hrest).
    eapply IH; [ | | exact Hrest].
    + intros t b t' Hb. apply Hstep. now right.
    + eapply Hstep; [left | exact HP | exact Ha].
Qed.

(** The iteration of a given element, between its prefix and its suffix. *)
Lemma for_each_elem a l s s' :
  a ∈ l -> for_each body l s = Ok s' ->
  exists l1 l2 s1 s2,
    l = l1 ++ a :: l2 /\ for_each body l1 s = Ok s1 /\
    body s1 a = Ok s2 /\ for_each body l2 s2 = Ok s'.
Proof.
  intros Hin H.
  apply list_elem_of_split in Hin as (l1 & l2 & ->).
  apply for_each_app in H as (s1 & H1 & H2).
  apply for_each_cons in H2 as (s2 & Ha & H2).
  exists l1, l2, s1, s2. auto.
Qed.

(** The loop returns when every iteration does. *)
Lemma for_each_total (P : S -> Prop) l :
  (forall s a, a ∈ l -> P s -> exists s', body s a = Ok s' /\ P s') ->
  forall s, P s -> exists s', for_each body l s = Ok s' /\ P s'.
Proof.
  induction l as [|a l IH]; intros Hstep s HP.
  - exists s. auto.
  - destruct (Hstep s a) as (s1 & Ha & HP1); [left | exact HP |].
    destruct (IH (fun t b Hb => Hstep t b (list_elem_of_further _ _ _ Hb)) s1 HP1)
      as (s' & H & HP').
    exists s'. simpl. rewrite Ha. auto.
Qed.
End ForEach.

(** ** Arrays *)

Lemma length_zeros sh : length (zeros sh) = sh.
Proof. apply length_replicate. Qed.

Lemma lookup_zeros sh j : j < sh -> zeros sh !! j = Some zero3.
Proof. intros H. apply lookup_replicate_2, H. Qed.

Lemma norm_zero3 : PrimFloat.eqb (norm zero3) 0 = true.
Proof. reflexivity. Qed.

Lemma getitem_Ok (a : array) i v : getitem a i = Ok v <-> a !! i = Some v.
Proof.
  unfold getitem. destruct (a !! i); split; intros H; congruence.
Qed.

Lemma setitem_Ok (a : array) i v a' :
  setitem a i v = Ok a' <-> i < length a /\ a' = <[i := v]> a.
Proof.
  unfold setitem. destruct (Nat.ltb_spec i (length a)); split.
  - intros [= <-]. auto.
  - intros [_ ->]. reflexivity.
  - discriminate.
  - intros [? _]. lia.
Qed.

(** ** Force encoding on the regular grid *)

(** The three ways one visit of a corner node can go. *)
Lemma encode_node_cases nb f (F : array) node F' :
  UNet.encode_node nb f F node = Ok F' ->
  (F' = F /\ nb <= node) \/
  (F' = F /\ node < nb /\
     exists v, F !! node = Some v /\ PrimFloat.eqb (norm v) 0 = false) \/
  (F' = <[node := f]> F /\ node < nb /\ node < length F /\
     exists v, F !! node = Some v /\ PrimFloat.eqb (norm v) 0 = true).
Proof.
  unfold UNet.encode_node. destruct (Nat.ltb_spec node nb) as [Hlt|Hge].
  - destruct (getitem F node) as [v|e] eqn:Hget; simpl; [|discriminate].
    apply getitem_Ok in Hget.
    destruct (PrimFloat.eqb (norm v) 0) eqn:Hz.
    + intros H. apply setitem_Ok in H as [Hlen ->]. right; right. eauto 6.
    + intros [= <-]. right; left. eauto.
  - intros [= <-]. left. auto.
Qed.

Lemma encode_node_length nb f (F : array) node F' :
  UNet.encode_node nb f F node = Ok F' -> length F' = length F.
Proof.
  intros H. apply encode_node_cases in H as [[-> _]|[[-> _]|[-> _]]];
    [reflexivity | reflexivity | apply length_insert].
Qed.

(** A slot whose norm is not zero is left alone, whatever the force. *)
Lemma encode_node_keeps nb f (F : array) node F' j v :
  F !! j = Some v -> PrimFloat.eqb (norm v) 0 = false ->
  UNet.encode_node nb f F node = Ok F' -> F' !! j = Some v.
Proof.
  intros Hj Hv H.
  apply encode_node_cases in H as [[-> _]|[[-> _]|(-> & _ & _ & w & Hw & Hz)]];
    try exact Hj.
  destruct (decide (node = j)) as [->|Hne].
  - congruence.
  - rewrite list_lookup_insert_ne; [exact Hj | exact Hne].
Qed.

(** A visit touches no slot but its own node, and none at or above [nb]. *)
Lemma encode_node_other nb f (F : array) node F' j :
  (j <> node \/ nb <= j) ->
  UNet.encode_node nb f F node = Ok F' -> F' !! j = F !! j.
Proof.
  intros Hj H.
  apply encode_node_cases in H as [[-> _]|[[-> _]|(-> & Hlt & _)]];
    try reflexivity.
  apply list_lookup_insert_ne. intros ->. lia.
Qed.

(** Slot [j] is still unset, or holds the force [f]. *)
Definition two_valued (f : vec3) (F : array) (j : nat) : Prop :=
  forall v, F !! j = Some v -> v = zero3 \/ v = f.

Lemma two_valued_zeros f sh j : two_valued f (zeros sh) j.
Proof.
  intros v H. unfold zeros in H. apply lookup_replicate in H as [-> _].
  now left.
Qed.

Lemma encode_node_two_valued nb f (F : array) node F' j :
  two_valued f F j -> UNet.encode_node nb f F node = Ok F' -> two_valued f F' j.
Proof.
  intros Hinv H.
  apply encode_node_cases in H as [[-> _]|[[-> _]|(-> & _ & Hlen & _)]];
    try exact Hinv.
  intros v Hj. destruct (decide (node = j)) as [->|Hne].
  - rewrite list_lookup_insert_eq in Hj by exact Hlen. right. congruence.
  - rewrite list_lookup_insert_ne in Hj by exact Hne. eapply Hinv, Hj.
Qed.

(** After its visit a valid corner holds the force, when the force is seen
    by the zero-magnitude test. *)
Lemma encode_node_hit nb f (F : array) node F' :
  two_valued f F node -> PrimFloat.eqb (norm f) 0 = false -> node < nb ->
  UNet.encode_node nb f F node = Ok F' -> F' !! node = Some f.
Proof.
  intros Hinv Hf Hlt H.
  apply encode_node_cases in H
    as [[-> Hge]|[(-> & _ & v & Hv & Hz)|(-> & _ & Hlen & _)]].
  - lia.
  - destruct (Hinv _ Hv) as [->| ->]; [|exact Hv].
    rewrite norm_zero3 in Hz. discriminate.
  - apply list_lookup_insert_eq, Hlen.
Qed.

Section CornerLoop.
Variables (nb : nat) (f : vec3).

Lemma corners_length nodes (F F' : array) :
  for_each (UNet.encode_node nb f) nodes F = Ok F' -> length F' = length F.
Proof.
  intros H.
  apply (for_each_invariant (UNet.encode_node nb f) (fun G : array => length G = length F) nodes)
    with (s := F); [|reflexivity|exact H].
  intros G a G' _ HG Ha. rewrite <- HG. eapply encode_node_length, Ha.
Qed.

Lemma corners_keep nodes (F F' : array) j v :
  F !! j = Some v -> PrimFloat.eqb (norm v) 0 = false ->
  for_each (UNet.encode_node nb f) nodes F = Ok F' -> F' !! j = Some v.
Proof.
  intros Hj Hv H.
  apply (for_each_invariant (UNet.encode_node nb f) (fun G : array => G !! j = Some v) nodes)
    with (s := F); [|exact Hj|exact H].
  intros G a G' _ HG Ha. eapply encode_node_keeps; eauto.
Qed.

Lemma corners_other nodes (F F' : array) j :
  (j ∉ nodes \/ nb <= j) ->
  for_each (UNet.encode_node nb f) nodes F = Ok F' -> F' !! j = F !! j.
Proof.
  intros Hj H.
  apply (for_each_invariant (UNet.encode_node nb f) (fun G : array => G !! j = F !! j) nodes)
    with (s := F); [|reflexivity|exact H].
  intros G a G' Ha HG Hstep. rewrite <- HG.
  eapply encode_node_other; [|exact Hstep].
  destruct Hj as [Hj|Hj]; [left; intros -> |right]; auto.
Qed.

Lemma corners_two_valued nodes (F F' : array) j :
  two_valued f F j ->
  for_each (UNet.encode_node nb f) nodes F = Ok F' -> two_valued f F' j.
Proof.
  intros Hinv H.
  apply (for_each_invariant (UNet.encode_node nb f)
           (fun G : array => two_valued f G j) nodes) with (s := F);
    [|exact Hinv|exact H].
  intros G a G' _ HG Ha. eapply encode_node_two_valued; eauto.
Qed.

Lemma corners_hit nodes (F F' : array) node :
  two_valued f F node -> PrimFloat.eqb (norm f) 0 = false ->
  node ∈ nodes -> node < nb ->
  for_each (UNet.encode_node nb f) nodes F = Ok F' -> F' !! node = Some f.
Proof.
  intros Hinv Hf Hin Hlt H.
  destruct (for_each_elem _ _ _ _ _ Hin H) as (l1 & l2 & F1 & F2 & -> & H1 & Hn & H2).
  eapply corners_keep; [|exact Hf|exact H2].
  eapply encode_node_hit; [|exact Hf|exact Hlt|exact Hn].
  eapply corners_two_valued; eauto.
Qed.

(** The loop over a cell's corners returns when its valid corners are slots. *)
Lemma corners_total nodes (F : array) :
  (forall node, node ∈ nodes -> node < nb -> node < length F) ->
  exists F', for_each (UNet.encode_node nb f) nodes F = Ok F'.
Proof.
  intros Hslots.
  destruct (for_each_total (UNet.encode_node nb f)
              (fun G : array => length G = length F) nodes) with (s := F)
    as (F' & H & _); [|reflexivity|eauto].
  intros G node Hin HG. unfold UNet.encode_node.
  destruct (Nat.ltb_spec node nb) as [Hlt|Hge]; [|eauto].
  specialize (Hslots node Hin Hlt). rewrite <- HG in Hslots.
  destruct (lookup_lt_is_Some_2 G node Hslots) as [v Hv].
  unfold getitem. rewrite Hv. simpl.
  destruct (PrimFloat.eqb (norm v) 0).
  - exists (<[node := f]> G). split; [|now rewrite length_insert].
    apply setitem_Ok. auto.
  - eauto.
Qed.
End CornerLoop.

Section FieldLoop.
Variables (s : UNet.LiverTraining) (mo : MechanicalObject).

Let nb := UNet.nb_nodes_regular_grid s.
Let corners (cell : nat) := UNet.node_indices_of (UNet.regular_grid s) cell.

(** One forced node: its rest position, its cell, then the corner loop. *)
Lemma encode_index_Ok ff (F F' : array) i :
  UNet.encode_index s mo ff F i = Ok F' <->
  exists p cell,
    rest_position mo !! i = Some p /\
    UNet.cell_index_containing (UNet.regular_grid s) p = Ok cell /\
    for_each (UNet.encode_node nb (UNet.force ff)) (corners cell) F = Ok F'.
Proof.
  unfold UNet.encode_index, getitem. split.
  - destruct (rest_position mo !! i) as [p|]; simpl; [|discriminate].
    destruct (UNet.cell_index_containing _ p) as [cell|e] eqn:Hc; simpl;
      [|discriminate].
    intros H. exists p, cell. auto.
  - intros (p & cell & -> & Hc & H). simpl. rewrite Hc. exact H.
Qed.

Lemma encode_index_keeps ff (F F' : array) i j v :
  F !! j = Some v -> PrimFloat.eqb (norm v) 0 = false ->
  UNet.encode_index s mo ff F i = Ok F' -> F' !! j = Some v.
Proof.
  intros Hj Hv H. apply encode_index_Ok in H as (p & cell & _ & _ & H).
  eapply corners_keep; eauto.
Qed.

Lemma encode_index_two_valued ff (F F' : array) i j :
  two_valued (UNet.force ff) F j ->
  UNet.encode_index s mo ff F i = Ok F' -> two_valued (UNet.force ff) F' j.
Proof.
  intros Hinv H. apply encode_index_Ok in H as (p & cell & _ & _ & H).
  eapply corners_two_valued; eauto.
Qed.

Lemma encode_index_length ff (F F' : array) i :
  UNet.encode_index s mo ff F i = Ok F' -> length F' = length F.
Proof.
  intros H. apply encode_index_Ok in H as (p & cell & _ & _ & H).
  eapply corners_length; eauto.
Qed.

Lemma encode_field_keeps ff (F F' : array) j v :
  F !! j = Some v -> PrimFloat.eqb (norm v) 0 = false ->
  UNet.encode_field s mo F ff = Ok F' -> F' !! j = Some v.
Proof.
  intros Hj Hv H. unfold UNet.encode_field in H.
  apply (for_each_invariant (UNet.encode_index s mo ff)
           (fun G : array => G !! j = Some v) (UNet.indices ff))
    with (s := F); [|exact Hj|exact H].
  intros G i G' _ HG Hi. eapply encode_index_keeps; eauto.
Qed.

Lemma encode_field_length ff (F F' : array) :
  UNet.encode_field s mo F ff = Ok F' -> length F' = length F.
Proof.
  intros H. unfold UNet.encode_field in H.
  apply (for_each_invariant (UNet.encode_index s mo ff)
           (fun G : array => length G = length F) (UNet.indices ff))
    with (s := F); [|reflexivity|exact H].
  intros G i G' _ HG Hi. rewrite <- HG. eapply encode_index_length; eauto.
Qed.

Lemma fields_keep ffs (F F' : array) j v :
  F !! j = Some v -> PrimFloat.eqb (norm v) 0 = false ->
  for_each (UNet.encode_field s mo) ffs F = Ok F' -> F' !! j = Some v.
Proof.
  intros Hj Hv H.
  apply (for_each_invariant (UNet.encode_field s mo)
           (fun G : array => G !! j = Some v) ffs)
    with (s := F); [|exact Hj|exact H].
  intros G ff G' _ HG Hff. eapply encode_field_keeps; eauto.
Qed.

Lemma fields_length ffs (F F' : array) :
  for_each (UNet.encode_field s mo) ffs F = Ok F' -> length F' = length F.
Proof.
  intros H.
  apply (for_each_invariant (UNet.encode_field s mo)
           (fun G : array => length G = length F) ffs)
    with (s := F); [|reflexivity|exact H].
  intros G ff G' _ HG Hff. rewrite <- HG. eapply encode_field_length; eauto.
Qed.

(** A field that reaches none of the cells around a slot leaves the slot. *)
Lemma encode_field_misses ff (F F' : array) node :
  (forall i p cell,
      i ∈ UNet.indices ff -> rest_position mo !! i = Some p ->
      UNet.cell_index_containing (UNet.regular_grid s) p = Ok cell ->
      node ∉ corners cell) ->
  UNet.encode_field s mo F ff = Ok F' -> F' !! node = F !! node.
Proof.
  intros Hmiss H. unfold UNet.encode_field in H.
  apply (for_each_invariant (UNet.encode_index s mo ff)
           (fun G : array => G !! node = F !! node) (UNet.indices ff))
    with (s := F); [|reflexivity|exact H].
  intros G i G' Hi HG Hstep. rewrite <- HG.
  apply encode_index_Ok in Hstep as (p & cell & Hp & Hc & Hloop).
  eapply corners_other; [left|exact Hloop]. eapply Hmiss; eauto.
Qed.

(** A field leaves its force on every valid corner it reaches that was
    unset or already held that force. *)
Lemma encode_field_hit ff (F F' : array) i p cell node :
  two_valued (UNet.force ff) F node ->
  PrimFloat.eqb (norm (UNet.force ff)) 0 = false ->
  i ∈ UNet.indices ff ->
  rest_position mo !! i = Some p ->
  UNet.cell_index_containing (UNet.regular_grid s) p = Ok cell ->
  node ∈ corners cell -> node < nb ->
  UNet.encode_field s mo F ff = Ok F' -> F' !! node = Some (UNet.force ff).
Proof.
  intros Hinv Hf Hi Hp Hc Hn Hlt H. unfold UNet.encode_field in H.
  destruct (for_each_elem _ _ _ _ _ Hi H)
    as (l1 & l2 & F1 & F2 & Hsplit & H1 & Hbody & H2).
  assert (Hinv1 : two_valued (UNet.force ff) F1 node).
  { apply (for_each_invariant (UNet.encode_index s mo ff)
             (fun G : array => two_valued (UNet.force ff) G node) l1)
      with (s := F);
      [|exact Hinv|exact H1].
    intros G k G' _ HG Hk. eapply encode_index_two_valued; eauto. }
  apply encode_index_Ok in Hbody as (p' & cell' & Hp' & Hc' & Hloop).
  assert (p' = p) as -> by congruence.
  assert (cell' = cell) as -> by congruence.
  assert (Hset : F2 !! node = Some (UNet.force ff)).
  { eapply corners_hit; eauto. }
  apply (for_each_invariant (UNet.encode_index s mo ff)
           (fun G : array => G !! node = Some (UNet.force ff)) l2)
    with (s := F2); [|exact Hset|exact H2].
  intros G k G' _ HG Hk. eapply encode_index_keeps; eauto.
Qed.
End FieldLoop.

(** The corner nodes a force field reaches: the corners of the cells that
    contain the rest positions of its nodes. *)
Definition corner_of_field (s : UNet.LiverTraining) (ff : UNet.ForceField)
    (node : nat) : Prop :=
  exists i p cell,
    i ∈ UNet.indices ff /\
    rest_position (UNet.surface_of s) !! i = Some p /\
    UNet.cell_index_containing (UNet.regular_grid s) p = Ok cell /\
    node ∈ UNet.node_indices_of (UNet.regular_grid s) cell.

(** C1, as amended.  The first force field of a step to reach a corner keeps
    it: when that field's force has a non-zero norm and the corner index is
    below the regular grid's node count, the array [compute_input] returns
    holds that field's force at the corner, whatever the later fields are and
    in whatever order the nodes are listed. *)
Theorem first_writer_wins s before first later F node :
  UNet.force_field s = before ++ first :: later ->
  (forall ff, ff ∈ before -> ~ corner_of_field s ff node) ->
  corner_of_field s first node ->
  node < UNet.nb_nodes_regular_grid s ->
  PrimFloat.eqb (norm (UNet.force first)) 0 = false ->
  UNet.compute_input s = Ok F ->
  F !! node = Some (UNet.force first).
Proof.
  intros Hff Hbefore (i & p & cell & Hi & Hp & Hc & Hn) Hlt Hf H.
  unfold UNet.compute_input in H. rewrite Hff in H.
  apply for_each_app in H as (F0 & Hpre & H).
  apply for_each_cons in H as (F1 & Hfirst & Hlater).
  assert (H0 : F0 !! node = zeros (UNet.data_size s) !! node).
  { apply (for_each_invariant (UNet.encode_field s (UNet.surface_of s))
             (fun G : array => G !! node = zeros (UNet.data_size s) !! node) before)
      with (s := zeros (UNet.data_size s)); [|reflexivity|exact Hpre].
    intros G ff G' Hin HG Hstep. rewrite <- HG.
    eapply encode_field_misses; [|exact Hstep].
    intros i' p' cell' Hi' Hp' Hc' Hn'.
    apply (Hbefore ff Hin). exists i', p', cell'. auto. }
  eapply fields_keep; [|exact Hf|exact Hlater].
  eapply encode_field_hit; eauto.
  intros v Hv. rewrite H0 in Hv. eapply two_valued_zeros, Hv.
Qed.

(** Two fields over a one-cell grid whose single corner is node 0; the first
    field's force is zero. *)
Definition one_cell_grid : UNet.RegularGrid :=
  {| UNet.cell_index_containing := fun _ => Ok 0;
     UNet.node_indices_of := fun _ => [0] |}.

Definition one_node : MechanicalObject :=
  {| position := [zero3]; rest_position := [zero3] |}.

Definition one_cell_scene (ffs : list UNet.ForceField) : UNet.LiverTraining :=
  {| UNet.create_model_fem := true;
     UNet.f_surface_mo := one_node;
     UNet.n_surface_mo := one_node;
     UNet.f_sparse_grid_mo := one_node;
     UNet.n_sparse_grid_mo := one_node;
     UNet.force_field := ffs;
     UNet.regular_grid := one_cell_grid;
     UNet.nb_nodes_regular_grid := 1;
     UNet.data_size := 1;
     UNet.idx_sparse_to_regular := [0];
     UNet.regular_grid_rest_shape := [zero3] |}.

Definition zero_field : UNet.ForceField :=
  {| UNet.indices := [0]; UNet.force := zero3 |}.

Definition down_field : UNet.ForceField :=
  {| UNet.indices := [0]; UNet.force := V3 0 (-1) 0 |}.

Definition up_field : UNet.ForceField :=
  {| UNet.indices := [0]; UNet.force := V3 0 1 0 |}.

Lemma corner_of_one_cell ffs ff : corner_of_field (one_cell_scene ffs) ff 0 <-> 0 ∈ UNet.indices ff.
Proof.
  split.
  - intros (i & p & cell & Hi & Hp & _). destruct i; [exact Hi | discriminate].
  - intros Hi. exists 0, zero3, 0. repeat split; [exact Hi | left].
Qed.

Lemma first_writer_wins_witness :
  UNet.compute_input (one_cell_scene [down_field; up_field]) = Ok [V3 0 (-1) 0] /\
  [V3 0 (-1) 0] !! 0 = Some (UNet.force down_field).
Proof.
  split; [reflexivity|].
  apply (first_writer_wins (one_cell_scene [down_field; up_field])
           [] down_field [up_field] [V3 0 (-1) 0] 0).
  - reflexivity.
  - intros ff H. apply list_elem_of_In in H. destruct H.
  - apply corner_of_one_cell. left.
  - simpl. lia.
  - reflexivity.
  - reflexivity.
Defined.

(** The first field's force is zero, the second's is not. *)
Definition zero_then_down : UNet.LiverTraining :=
  one_cell_scene [zero_field; down_field].

(** C1, as stated, fails when the first field's force is zero: the zero test
    takes its corner for unset and the second field's force is written. *)
Lemma first_writer_zero_force_overwritten :
  corner_of_field zero_then_down zero_field 0 /\
  corner_of_field zero_then_down down_field 0 /\
  0 < UNet.nb_nodes_regular_grid zero_then_down /\
  UNet.compute_input zero_then_down = Ok [UNet.force down_field] /\
  [UNet.force down_field] !! 0 <> Some (UNet.force zero_field).
Proof.
  repeat split.
  - apply corner_of_one_cell. left.
  - apply corner_of_one_cell. left.
  - simpl. lia.
  - intros H. apply (f_equal (fun o => match o with
                                       | Some v => PrimFloat.eqb (vy v) 0
                                       | None => true
                                       end)) in H.
    vm_compute in H. discriminate.
Qed.

(** The zero test is the binary64 one: a force too small for its squares to be
    representable has norm zero as well, and is overwritten in the same way. *)
Definition tiny_field : UNet.ForceField :=
  {| UNet.indices := [0]; UNet.force := V3 0x1p-600 0 0 |}.

Example tiny_first_force_overwritten :
  PrimFloat.eqb (norm (UNet.force tiny_field)) 0 = true /\
  UNet.compute_input (one_cell_scene [tiny_field; down_field])
  = Ok [UNet.force down_field].
Proof. split; reflexivity. Qed.

(** C6.  With one force field of force [(0, -1, 0)] on a single surface node,
    [compute_input] returns an array of the declared size that holds
    [(0, -1, 0)] at the corners of the node's cell that are below the regular
    grid's node count, and zero at every other slot; a corner at or above the
    node count receives nothing. *)
Theorem single_force_scenario s ff i p cell :
  UNet.force_field s = [ff] ->
  UNet.force ff = V3 0 (-1) 0 ->
  UNet.indices ff = [i] ->
  rest_position (UNet.surface_of s) !! i = Some p ->
  UNet.cell_index_containing (UNet.regular_grid s) p = Ok cell ->
  (forall node, node ∈ UNet.node_indices_of (UNet.regular_grid s) cell ->
                node < UNet.nb_nodes_regular_grid s -> node < UNet.data_size s) ->
  exists F,
    UNet.compute_input s = Ok F /\ length F = UNet.data_size s /\
    forall j, j < UNet.data_size s ->
      F !! j = Some (if bool_decide
                          (j ∈ UNet.node_indices_of (UNet.regular_grid s) cell /\
                           j < UNet.nb_nodes_regular_grid s)
                     then V3 0 (-1) 0 else zero3).
Proof.
  intros Hff Hf Hidx Hp Hc Hslots.
  destruct (corners_total (UNet.nb_nodes_regular_grid s) (UNet.force ff)
              (UNet.node_indices_of (UNet.regular_grid s) cell)
              (zeros (UNet.data_size s))) as [F HF].
  { intros node Hin Hlt. rewrite length_zeros. auto. }
  assert (Hrun : UNet.compute_input s = Ok F).
  { unfold UNet.compute_input. rewrite Hff. simpl.
    unfold UNet.encode_field. rewrite Hidx. simpl.
    unfold UNet.encode_index, getitem. rewrite Hp. simpl. rewrite Hc. simpl.
    rewrite HF. reflexivity. }
  exists F. split; [exact Hrun|]. split.
  { rewrite (corners_length _ _ _ _ _ HF). apply length_zeros. }
  intros j Hj. case_bool_decide as Hcase.
  - destruct Hcase as [Hin Hlt]. rewrite <- Hf.
    eapply corners_hit; [apply two_valued_zeros | | exact Hin | exact Hlt | exact HF].
    rewrite Hf. reflexivity.
  - rewrite (corners_other _ _ _ _ _ j) with (2 := HF).
    + apply lookup_zeros, Hj.
    + destruct (decide (j ∈ UNet.node_indices_of (UNet.regular_grid s) cell));
        [right|left; assumption].
      destruct (Nat.lt_ge_cases j (UNet.nb_nodes_regular_grid s)); [|assumption].
      exfalso. apply Hcase. auto.
Qed.

(** A cell with four corners, two of them above the node count. *)
Definition four_corner_grid : UNet.RegularGrid :=
  {| UNet.cell_index_containing := fun _ => Ok 0;
     UNet.node_indices_of := fun _ => [1; 3; 5; 7] |}.

Definition four_corner_scene : UNet.LiverTraining :=
  {| UNet.create_model_fem := false;
     UNet.f_surface_mo := one_node;
     UNet.n_surface_mo := one_node;
     UNet.f_sparse_grid_mo := one_node;
     UNet.n_sparse_grid_mo := one_node;
     UNet.force_field := [down_field];
     UNet.regular_grid := four_corner_grid;
     UNet.nb_nodes_regular_grid := 4;
     UNet.data_size := 4;
     UNet.idx_sparse_to_regular := [0];
     UNet.regular_grid_rest_shape := zeros 4 |}.

Lemma single_force_scenario_witness :
  exists F,
    UNet.compute_input four_corner_scene = Ok F /\ length F = 4 /\
    forall j, j < 4 ->
      F !! j = Some (if bool_decide (j ∈ [1; 3; 5; 7] /\ j < 4)
                     then V3 0 (-1) 0 else zero3).
Proof.
  apply (single_force_scenario four_corner_scene down_field 0 zero3 0);
    try reflexivity.
  simpl. intros node _ H. exact H.
Defined.

(** ** Index-array assignment, gathering and element-wise arithmetic *)

Lemma length_assign (idx : list nat) (vals a : array) : length (assign a idx vals) = length a.
Proof.
  revert a vals. induction idx as [|i idx IH]; intros a [|v vals]; simpl; auto.
  rewrite IH. apply length_insert.
Qed.

(** A slot no index names keeps its value. *)
Lemma assign_lookup_notin (idx : list nat) (vals a : array) j :
  j ∉ idx -> assign a idx vals !! j = a !! j.
Proof.
  revert a vals. induction idx as [|i idx IH]; intros a [|v vals] Hj; simpl; auto.
  rewrite IH.
  - apply list_lookup_insert_ne. intros ->. apply Hj. left.
  - intros H. apply Hj. now right.
Qed.

(** A slot holds the value paired with the last index that names it. *)
Lemma assign_lookup_last (idx : list nat) (vals a : array) p j v :
  idx !! p = Some j -> vals !! p = Some v ->
  (forall q, p < q -> idx !! q <> Some j) ->
  j < length a ->
  assign a idx vals !! j = Some v.
Proof.
  revert a vals p. induction idx as [|i idx IH]; intros a vals p Hp Hv Hlast Hj.
  - discriminate.
  - destruct vals as [|w vals]; [destruct p; discriminate|].
    destruct p as [|p]; simpl in *.
    + injection Hp as ->. injection Hv as ->.
      rewrite assign_lookup_notin.
      * apply list_lookup_insert_eq, Hj.
      * intros Hin. apply list_elem_of_lookup in Hin as [q Hq].
        apply (Hlast (S q)); [lia | exact Hq].
    + apply (IH _ _ p); auto.
      * intros q Hq. apply (Hlast (S q)). lia.
      * now rewrite length_insert.
Qed.

Lemma broadcast_to_Ok k (vals vals' : array) :
  broadcast_to k vals = Ok vals' ->
  length vals' = k /\ (length vals = k -> vals' = vals).
Proof.
  unfold broadcast_to. destruct (Nat.eqb_spec (length vals) k) as [Heq|Hne].
  - intros [= <-]. auto.
  - destruct vals as [|v [|? ?]]; try discriminate.
    intros [= <-]. split; [apply length_replicate | intros; contradiction].
Qed.

Lemma setitem_fancy_Ok (a : array) (idx : list nat) (vals a' : array) :
  setitem_fancy a idx vals = Ok a' <->
  exists vals', broadcast_to (length idx) vals = Ok vals' /\
                Forall (fun i => i < length a) idx /\
                a' = assign a idx vals'.
Proof.
  unfold setitem_fancy.
  destruct (broadcast_to (length idx) vals) as [vals'|e]; simpl.
  - destruct (forallb (fun i => i <? length a) idx) eqn:Hall.
    + split.
      * intros [= <-]. exists vals'. repeat split.
        apply Forall_forall. intros i Hi.
        rewrite forallb_forall in Hall. apply Nat.ltb_lt, Hall.
        now apply list_elem_of_In.
      * intros (w & [= <-] & _ & ->). reflexivity.
    + split; [discriminate|]. intros (w & _ & Hin & _). exfalso.
      assert (forallb (fun i => i <? length a) idx = true); [|congruence].
      apply forallb_forall. intros i Hi. apply Nat.ltb_lt.
      rewrite Forall_forall in Hin. apply Hin. now apply list_elem_of_In.
  - split; [discriminate|]. intros (w & H & _). discriminate.
Qed.

Lemma setitem_fancy_length (a : array) (idx : list nat) (vals a' : array) :
  setitem_fancy a idx vals = Ok a' -> length a' = length a.
Proof.
  intros H. apply setitem_fancy_Ok in H as (w & _ & _ & ->). apply length_assign.
Qed.

Lemma take_Ok (a : array) (idx : list nat) :
  Forall (fun j => j < length a) idx ->
  exists r, take a idx = Ok r /\ length r = length idx /\
            forall p j, idx !! p = Some j -> r !! p = a !! j.
Proof.
  induction idx as [|i idx IH]; intros Hall.
  - exists []. repeat split. intros p j H. discriminate.
  - apply Forall_cons in Hall as [Hi Hall].
    destruct (IH Hall) as (r & Hr & Hlen & Hget).
    destruct (lookup_lt_is_Some_2 a i Hi) as [v Hv].
    exists (v :: r). simpl. unfold getitem. rewrite Hv. simpl. rewrite Hr. simpl.
    repeat split; [now rewrite Hlen|].
    intros [|p] j; simpl; [intros [= <-]; now rewrite Hv | apply Hget].
Qed.

Lemma elementwise_same_length (op : vec3 -> vec3 -> vec3) (a b : array) :
  length a = length b -> elementwise op a b = Ok (zip_with op a b).
Proof. intros H. unfold elementwise. now rewrite H, Nat.eqb_refl. Qed.

Lemma zip_with_lookup_Some (op : vec3 -> vec3 -> vec3) (a b : array) i x y :
  a !! i = Some x -> b !! i = Some y -> zip_with op a b !! i = Some (op x y).
Proof. intros Ha Hb. rewrite lookup_zip_with, Ha. simpl. now rewrite Hb. Qed.

Lemma zip_with_same_length (op : vec3 -> vec3 -> vec3) (a b : array) :
  length a = length b -> length (zip_with op a b) = length a.
Proof. intros H. rewrite length_zip_with. lia. Qed.

(** The shape of an element-wise result when the operands' shapes agree up
    to broadcasting. *)
Lemma elementwise_length (op : vec3 -> vec3 -> vec3) (a b c : array) :
  elementwise op a b = Ok c -> length b = length a -> length c = length a.
Proof.
  intros H Hlen. rewrite elementwise_same_length in H by congruence.
  injection H as <-. apply zip_with_same_length. congruence.
Qed.

Lemma length_flatten (a : array) : length (flatten a) = size_of (length a).
Proof.
  unfold size_of. induction a as [|v a IH]; simpl; [reflexivity|]. rewrite IH. lia.
Qed.

Lemma rows_of_flatten (a : array) : rows_of (flatten a) (length a) = a.
Proof.
  induction a as [|[x y z] a IH]; simpl; [reflexivity|]. now rewrite IH.
Qed.

Lemma length_rows_of flat n : length flat = size_of n -> length (rows_of flat n) = n.
Proof.
  unfold size_of. revert flat. induction n as [|n IH]; intros flat H; simpl.
  - reflexivity.
  - destruct flat as [|x [|y [|z flat]]]; simpl in H; try lia.
    simpl. rewrite IH; [reflexivity | lia].
Qed.

(** Reshaping a flattened array gives the array back. *)
Lemma reshape_flatten (a : array) : reshape (flatten a) (length a) = Ok a.
Proof.
  unfold reshape. rewrite length_flatten, Nat.eqb_refl. now rewrite rows_of_flatten.
Qed.

(** ** Ground truth on the regular grid *)

(** [v == 0.] on every component. *)
Definition is_zero3 (v : vec3) : bool :=
  PrimFloat.eqb (vx v) 0 && PrimFloat.eqb (vy v) 0 && PrimFloat.eqb (vz v) 0.

(** Subtracting from zero keeps a component zero or non-zero (binary64). *)
Lemma zero_minus_eqb x : PrimFloat.eqb (0 - x) 0 = PrimFloat.eqb x 0.
Proof.
  rewrite !FloatAxioms.eqb_spec, FloatAxioms.sub_spec.
  change (Prim2SF 0) with (S754_zero false).
  destruct (Prim2SF x) as [sg|sg| |sg m e]; try destruct sg; reflexivity.
Qed.

Lemma is_zero3_negated r : is_zero3 (sub3 zero3 r) = is_zero3 r.
Proof. unfold is_zero3, sub3. simpl. now rewrite !zero_minus_eqb. Qed.

Section GridOutput.
Variable s : UNet.LiverTraining.

Let idx := UNet.idx_sparse_to_regular s.
Let pos := position (UNet.f_sparse_grid_mo s).
Let rest := UNet.regular_grid_rest_shape s.
Let n := UNet.data_size s.

(** What [compute_output] returns, whenever it returns. *)
Lemma grid_output_inv U :
  UNet.compute_output s = Ok U -> length rest = n ->
  exists vals, broadcast_to (length idx) pos = Ok vals /\
               Forall (fun j => j < n) idx /\
               U = zip_with sub3 (assign (zeros n) idx vals) rest.
Proof.
  unfold UNet.compute_output. fold idx pos rest n. intros H Hrest.
  destruct (setitem_fancy (zeros n) idx pos) as [A|e] eqn:HA; [|discriminate].
  simpl in H. pose proof (setitem_fancy_length _ _ _ _ HA) as HlenA.
  apply setitem_fancy_Ok in HA as (vals & Hb & Hin & ->).
  rewrite length_zeros in Hin, HlenA.
  unfold subtract in H. rewrite elementwise_same_length in H by congruence.
  injection H as <-. eauto.
Qed.

(** It returns when the table fits the grid and the sparse grid. *)
Lemma grid_output_Ok :
  Forall (fun j => j < n) idx -> length pos = length idx -> length rest = n ->
  UNet.compute_output s = Ok (zip_with sub3 (assign (zeros n) idx pos) rest).
Proof.
  intros Hin Hpos Hrest. unfold UNet.compute_output. fold idx pos rest n.
  unfold setitem_fancy, broadcast_to. rewrite Hpos, Nat.eqb_refl. simpl.
  replace (forallb (fun i => i <? length (zeros n)) idx) with true.
  - unfold subtract. apply elementwise_same_length.
    now rewrite length_assign, length_zeros.
  - symmetry. apply forallb_forall. intros i Hi. apply Nat.ltb_lt.
    rewrite length_zeros. rewrite Forall_forall in Hin.
    apply Hin. now apply list_elem_of_In.
Qed.

Lemma grid_output_mapped i j x r :
  Forall (fun j => j < n) idx -> length pos = length idx -> length rest = n ->
  idx !! i = Some j -> (forall q, i < q -> idx !! q <> Some j) ->
  pos !! i = Some x -> rest !! j = Some r ->
  zip_with sub3 (assign (zeros n) idx pos) rest !! j = Some (sub3 x r).
Proof.
  intros Hin Hpos Hrest Hi Hlast Hx Hr.
  apply zip_with_lookup_Some; [|exact Hr].
  apply (assign_lookup_last _ _ _ i); auto.
  rewrite length_zeros. rewrite Forall_forall in Hin.
  apply Hin. eapply list_elem_of_lookup_2, Hi.
Qed.
End GridOutput.

(** C2 as worded for the grid variant: the high-resolution displacement is
    scattered, then the regular grid's rest shape is subtracted. *)
Definition compute_output_as_stated (s : UNet.LiverTraining) : result array :=
  let* displacement := subtract (position (UNet.f_sparse_grid_mo s))
                                (rest_position (UNet.f_sparse_grid_mo s)) in
  let* on_grid := setitem_fancy (zeros (UNet.data_size s))
                                (UNet.idx_sparse_to_regular s) displacement in
  subtract on_grid (UNet.regular_grid_rest_shape s).

(** An undeformed one-node scene whose node rests at [(1, 0, 0)]. *)
Definition at_rest : MechanicalObject :=
  {| position := [V3 1 0 0]; rest_position := [V3 1 0 0] |}.

Definition undeformed_scene : UNet.LiverTraining :=
  {| UNet.create_model_fem := true;
     UNet.f_surface_mo := at_rest;
     UNet.n_surface_mo := at_rest;
     UNet.f_sparse_grid_mo := at_rest;
     UNet.n_sparse_grid_mo := at_rest;
     UNet.force_field := [];
     UNet.regular_grid := one_cell_grid;
     UNet.nb_nodes_regular_grid := 1;
     UNet.data_size := 1;
     UNet.idx_sparse_to_regular := [0];
     UNet.regular_grid_rest_shape := [V3 1 0 0] |}.

(** C2, as stated, fails: the code scatters positions, so the undeformed
    scene gives a zero field, where scattering the displacement and then
    subtracting the rest shape would give [(-1, 0, 0)]. *)
Lemma scattered_displacement_differs :
  UNet.compute_output undeformed_scene = Ok [V3 0 0 0] /\
  compute_output_as_stated undeformed_scene = Ok [V3 (-1) 0 0] /\
  UNet.compute_output undeformed_scene <> compute_output_as_stated undeformed_scene.
Proof.
  assert (H1 : UNet.compute_output undeformed_scene = Ok [V3 0 0 0]) by reflexivity.
  assert (H2 : compute_output_as_stated undeformed_scene = Ok [V3 (-1) 0 0])
    by reflexivity.
  split; [exact H1 | split; [exact H2 |]].
  rewrite H1, H2. intros H.
  apply (f_equal (fun o => match o with
                           | Ok [v] => PrimFloat.eqb (vx v) 0
                           | _ => false
                           end)) in H.
  vm_compute in H. discriminate.
Qed.

(** C2, as amended.  [compute_output] returns the field current position minus
    rest position: directly when the representations coincide, and on the grid
    by scattering the high-resolution current positions into the slots the
    index table selects and subtracting the regular grid's rest shape there. *)
Theorem compute_output_displacement :
  (forall s : FC.LiverTraining,
      length (rest_position (FC.f_sparse_grid_mo s))
      = length (position (FC.f_sparse_grid_mo s)) ->
      exists U,
        FC.compute_output s = Ok U /\
        length U = length (position (FC.f_sparse_grid_mo s)) /\
        forall i x r,
          position (FC.f_sparse_grid_mo s) !! i = Some x ->
          rest_position (FC.f_sparse_grid_mo s) !! i = Some r ->
          U !! i = Some (sub3 x r)) /\
  (forall s : UNet.LiverTraining,
      Forall (fun j => j < UNet.data_size s) (UNet.idx_sparse_to_regular s) ->
      length (position (UNet.f_sparse_grid_mo s))
      = length (UNet.idx_sparse_to_regular s) ->
      length (UNet.regular_grid_rest_shape s) = UNet.data_size s ->
      exists U,
        UNet.compute_output s = Ok U /\
        length U = UNet.data_size s /\
        forall i j x r,
          UNet.idx_sparse_to_regular s !! i = Some j ->
          (forall q, i < q -> UNet.idx_sparse_to_regular s !! q <> Some j) ->
          position (UNet.f_sparse_grid_mo s) !! i = Some x ->
          UNet.regular_grid_rest_shape s !! j = Some r ->
          U !! j = Some (sub3 x r)).
Proof.
  split.
  - intros s Hlen. eexists. split; [|split].
    + unfold FC.compute_output, subtract. apply elementwise_same_length. congruence.
    + apply zip_with_same_length. congruence.
    + intros i x r Hx Hr. now apply zip_with_lookup_Some.
  - intros s Hin Hpos Hrest. eexists. split; [|split].
    + apply grid_output_Ok; assumption.
    + rewrite zip_with_same_length; rewrite length_assign, length_zeros; congruence.
    + intros i j x r Hi Hlast Hx Hr. now apply (grid_output_mapped s i j).
Qed.

Lemma compute_output_displacement_witness :
  exists U, UNet.compute_output undeformed_scene = Ok U /\ length U = 1 /\
    forall i j x r,
      [0] !! i = Some j -> (forall q, i < q -> [0] !! q <> Some j) ->
      [V3 1 0 0] !! i = Some x -> [V3 1 0 0] !! j = Some r ->
      U !! j = Some (sub3 x r).
Proof.
  apply (proj2 compute_output_displacement undeformed_scene).
  - repeat constructor.
  - reflexivity.
  - reflexivity.
Defined.

(** C9.  On the grid, a slot that is the image of no sparse-grid node holds
    zero minus the regular grid's rest position there, which is non-zero
    whenever that rest position is. *)
Theorem unmapped_slot_is_negated_rest s U j r :
  UNet.compute_output s = Ok U ->
  length (UNet.regular_grid_rest_shape s) = UNet.data_size s ->
  j ∉ UNet.idx_sparse_to_regular s ->
  UNet.regular_grid_rest_shape s !! j = Some r ->
  U !! j = Some (sub3 zero3 r) /\
  (is_zero3 r = false -> is_zero3 (sub3 zero3 r) = false).
Proof.
  intros H Hrest Hj Hr.
  apply grid_output_inv in H as (vals & _ & _ & ->); [|exact Hrest].
  split.
  - apply zip_with_lookup_Some; [|exact Hr].
    rewrite assign_lookup_notin by exact Hj.
    apply lookup_zeros. rewrite <- Hrest. eapply lookup_lt_Some, Hr.
  - now rewrite is_zero3_negated.
Qed.

(** A two-slot grid whose slot 1 is the image of no sparse node. *)
Definition half_mapped_scene : UNet.LiverTraining :=
  {| UNet.create_model_fem := true;
     UNet.f_surface_mo := at_rest;
     UNet.n_surface_mo := at_rest;
     UNet.f_sparse_grid_mo := at_rest;
     UNet.n_sparse_grid_mo := at_rest;
     UNet.force_field := [];
     UNet.regular_grid := one_cell_grid;
     UNet.nb_nodes_regular_grid := 2;
     UNet.data_size := 2;
     UNet.idx_sparse_to_regular := [0];
     UNet.regular_grid_rest_shape := [V3 1 0 0; V3 2 0 0] |}.

Lemma unmapped_slot_is_negated_rest_witness :
  [V3 0 0 0; V3 (-2) 0 0] !! 1 = Some (sub3 zero3 (V3 2 0 0)) /\
  (is_zero3 (V3 2 0 0) = false -> is_zero3 (sub3 zero3 (V3 2 0 0)) = false).
Proof.
  apply (unmapped_slot_is_negated_rest half_mapped_scene
           [V3 0 0 0; V3 (-2) 0 0] 1 (V3 2 0 0)).
  - reflexivity.
  - reflexivity.
  - intros H. apply list_elem_of_In in H. simpl in H. intuition discriminate.
  - reflexivity.
Defined.

(** ** Writing a prediction back *)

(** Nothing but the prediction model's position buffer differs. *)
Definition only_n_position_changed_FC (s s' : FC.LiverTraining) : Prop :=
  FC.f_sparse_grid_mo s' = FC.f_sparse_grid_mo s /\
  FC.n_surface_mo s' = FC.n_surface_mo s /\
  rest_position (FC.n_sparse_grid_mo s') = rest_position (FC.n_sparse_grid_mo s) /\
  FC.force_field s' = FC.force_field s /\
  FC.input_size s' = FC.input_size s /\
  FC.output_size s' = FC.output_size s.

Definition only_n_position_changed_UNet (s s' : UNet.LiverTraining) : Prop :=
  UNet.create_model_fem s' = UNet.create_model_fem s /\
  UNet.f_surface_mo s' = UNet.f_surface_mo s /\
  UNet.n_surface_mo s' = UNet.n_surface_mo s /\
  UNet.f_sparse_grid_mo s' = UNet.f_sparse_grid_mo s /\
  rest_position (UNet.n_sparse_grid_mo s')
  = rest_position (UNet.n_sparse_grid_mo s) /\
  UNet.force_field s' = UNet.force_field s /\
  UNet.regular_grid s' = UNet.regular_grid s /\
  UNet.nb_nodes_regular_grid s' = UNet.nb_nodes_regular_grid s /\
  UNet.data_size s' = UNet.data_size s /\
  UNet.idx_sparse_to_regular s' = UNet.idx_sparse_to_regular s /\
  UNet.regular_grid_rest_shape s' = UNet.regular_grid_rest_shape s.

Lemma apply_prediction_FC_inv s prediction s' :
  FC.apply_prediction s prediction = Ok s' ->
  exists p, s' = FC.set_n_sparse_position s p.
Proof.
  unfold FC.apply_prediction.
  destruct (FC.reshape_declared prediction (FC.output_size s)) as [U|]; simpl;
    [|discriminate].
  destruct (FC.add_reshaped _ U) as [p|]; simpl; [|discriminate].
  intros [= <-]. eauto.
Qed.

Lemma apply_prediction_UNet_inv s prediction s' :
  UNet.apply_prediction s prediction = Ok s' ->
  exists p, s' = UNet.set_n_sparse_position s p.
Proof.
  unfold UNet.apply_prediction.
  destruct (reshape prediction (UNet.data_size s)) as [U|]; simpl; [|discriminate].
  destruct (take U _) as [U_sparse|]; simpl; [|discriminate].
  destruct (add _ U_sparse) as [p|]; simpl; [|discriminate].
  intros [= <-]. eauto.
Qed.

Lemma apply_prediction_FC_frame s prediction s' :
  FC.apply_prediction s prediction = Ok s' -> only_n_position_changed_FC s s'.
Proof.
  intros H. apply apply_prediction_FC_inv in H as [p ->].
  repeat split.
Qed.

Lemma apply_prediction_UNet_frame s prediction s' :
  UNet.apply_prediction s prediction = Ok s' -> only_n_position_changed_UNet s s'.
Proof.
  intros H. apply apply_prediction_UNet_inv in H as [p ->].
  repeat split.
Qed.

Lemma reshape_Ok flat sh :
  length flat = size_of sh -> reshape flat sh = Ok (rows_of flat sh).
Proof. intros H. unfold reshape. now rewrite H, Nat.eqb_refl. Qed.

(** The grid variant's write-back, for a prediction that reshapes to [U]. *)
Lemma apply_prediction_UNet_Ok s prediction U :
  reshape prediction (UNet.data_size s) = Ok U ->
  length U = UNet.data_size s ->
  Forall (fun j => j < UNet.data_size s) (UNet.idx_sparse_to_regular s) ->
  length (rest_position (UNet.n_sparse_grid_mo s))
  = length (UNet.idx_sparse_to_regular s) ->
  exists U_sparse,
    take U (UNet.idx_sparse_to_regular s) = Ok U_sparse /\
    (forall i j, UNet.idx_sparse_to_regular s !! i = Some j ->
                 U_sparse !! i = U !! j) /\
    UNet.apply_prediction s prediction
    = Ok (UNet.set_n_sparse_position s
            (zip_with add3 (rest_position (UNet.n_sparse_grid_mo s)) U_sparse)).
Proof.
  intros HU Hlen Hin Hrest.
  destruct (take_Ok U (UNet.idx_sparse_to_regular s)) as (r & Hr & Hlr & Hget).
  { now rewrite Hlen. }
  exists r. split; [exact Hr|]. split; [exact Hget|].
  unfold UNet.apply_prediction. rewrite HU. simpl. rewrite Hr. simpl.
  unfold add. rewrite elementwise_same_length by congruence. reflexivity.
Qed.

(** One sparse node on a two-slot grid: the table sends node 0 to slot 1. *)
Definition displaced_scene_grid : UNet.LiverTraining :=
  {| UNet.create_model_fem := true;
     UNet.f_surface_mo := one_node;
     UNet.n_surface_mo := one_node;
     UNet.f_sparse_grid_mo := at_rest;
     UNet.n_sparse_grid_mo := at_rest;
     UNet.force_field := [];
     UNet.regular_grid := one_cell_grid;
     UNet.nb_nodes_regular_grid := 2;
     UNet.data_size := 2;
     UNet.idx_sparse_to_regular := [1];
     UNet.regular_grid_rest_shape := [V3 0 0 0; V3 1 0 0] |}.

(** Row [j] of a reshaped flat array holds its entries [3j], [3j+1], [3j+2]. *)
Lemma rows_of_lookup flat n j x y z :
  j < n ->
  flat !! (3 * j) = Some x -> flat !! (3 * j + 1) = Some y ->
  flat !! (3 * j + 2) = Some z ->
  rows_of flat n !! j = Some (V3 x y z).
Proof.
  revert flat j. induction n as [|n IH]; intros flat j Hj Hx Hy Hz; [lia|].
  destruct j as [|j].
  - destruct flat as [|a [|b [|c flat]]]; try discriminate.
    simpl in *. congruence.
  - replace (3 * S j) with (S (S (S (3 * j)))) in * by lia.
    destruct flat as [|a [|b [|c flat]]]; try discriminate.
    simpl in Hx, Hy, Hz. simpl. apply IH; [lia | assumption..].
Qed.

(** C5.  For a flat prediction of the declared length, [apply_prediction]
    writes rest position plus reshaped prediction (coincident
    representations), or rest position plus the reshaped prediction gathered
    through the index table (grid), into the prediction model's position
    buffer, and leaves every other part of the state as it was.  Entry by
    entry: node [i] receives its rest position plus the prediction's entries
    [3i], [3i+1], [3i+2] (coincident), or [3j], [3j+1], [3j+2] for the slot
    [j] the table gives node [i] (grid). *)
Theorem apply_prediction_writes_n_position_only :
  (forall (s : FC.LiverTraining) prediction sh,
      FC.output_size s = Some sh ->
      length prediction = size_of sh ->
      length (rest_position (FC.n_sparse_grid_mo s)) = sh ->
      exists s',
        FC.apply_prediction s prediction = Ok s' /\
        position (FC.n_sparse_grid_mo s')
        = zip_with add3 (rest_position (FC.n_sparse_grid_mo s))
                        (rows_of prediction sh) /\
        only_n_position_changed_FC s s' /\
        length (position (FC.n_sparse_grid_mo s')) = sh /\
        forall i nr x y z,
          rest_position (FC.n_sparse_grid_mo s) !! i = Some nr ->
          prediction !! (3 * i) = Some x ->
          prediction !! (3 * i + 1) = Some y ->
          prediction !! (3 * i + 2) = Some z ->
          position (FC.n_sparse_grid_mo s') !! i = Some (add3 nr (V3 x y z))) /\
  (forall (s : UNet.LiverTraining) prediction,
      length prediction = size_of (UNet.data_size s) ->
      Forall (fun j => j < UNet.data_size s) (UNet.idx_sparse_to_regular s) ->
      length (rest_position (UNet.n_sparse_grid_mo s))
      = length (UNet.idx_sparse_to_regular s) ->
      exists s' U_sparse,
        UNet.apply_prediction s prediction = Ok s' /\
        take (rows_of prediction (UNet.data_size s)) (UNet.idx_sparse_to_regular s)
        = Ok U_sparse /\
        position (UNet.n_sparse_grid_mo s')
        = zip_with add3 (rest_position (UNet.n_sparse_grid_mo s)) U_sparse /\
        only_n_position_changed_UNet s s' /\
        length (position (UNet.n_sparse_grid_mo s'))
        = length (UNet.idx_sparse_to_regular s) /\
        forall i j nr x y z,
          UNet.idx_sparse_to_regular s !! i = Some j ->
          rest_position (UNet.n_sparse_grid_mo s) !! i = Some nr ->
          prediction !! (3 * j) = Some x ->
          prediction !! (3 * j + 1) = Some y ->
          prediction !! (3 * j + 2) = Some z ->
          position (UNet.n_sparse_grid_mo s') !! i = Some (add3 nr (V3 x y z))).
Proof.
  split.
  - intros s prediction sh Hsh Hlen Hrest.
    assert (Hrun : FC.apply_prediction s prediction
                   = Ok (FC.set_n_sparse_position s
                           (zip_with add3 (rest_position (FC.n_sparse_grid_mo s))
                                          (rows_of prediction sh)))).
    { unfold FC.apply_prediction, FC.reshape_declared. rewrite Hsh.
      rewrite reshape_Ok by exact Hlen. simpl.
      unfold add. rewrite elementwise_same_length; [reflexivity|].
      rewrite length_rows_of by exact Hlen. exact Hrest. }
    eexists. split; [exact Hrun|]. split; [reflexivity|].
    split; [eapply apply_prediction_FC_frame, Hrun|]. simpl. split.
    + rewrite zip_with_same_length; [exact Hrest|].
      now rewrite length_rows_of.
    + intros i nr x y z Hnr Hx Hy Hz.
      apply zip_with_lookup_Some; [exact Hnr|].
      apply rows_of_lookup; try assumption.
      rewrite <- Hrest. eapply lookup_lt_Some, Hnr.
  - intros s prediction Hlen Hin Hrest.
    destruct (apply_prediction_UNet_Ok s prediction
                (rows_of prediction (UNet.data_size s)))
      as (r & Hr & Hget & Hrun); auto using reshape_Ok, length_rows_of.
    eexists. exists r. split; [exact Hrun|]. split; [exact Hr|].
    split; [reflexivity|].
    split; [eapply apply_prediction_UNet_frame, Hrun|]. simpl.
    pose proof (take_Ok (rows_of prediction (UNet.data_size s))
                  (UNet.idx_sparse_to_regular s)) as Htake.
    destruct Htake as (r' & Hr' & Hlr & _);
      [now rewrite length_rows_of|].
    assert (r' = r) as -> by congruence.
    split.
    + rewrite zip_with_same_length; congruence.
    + intros i j nr x y z Hi Hnr Hx Hy Hz.
      apply zip_with_lookup_Some; [exact Hnr|].
      rewrite (Hget i j Hi). apply rows_of_lookup; try assumption.
      rewrite Forall_forall in Hin. apply Hin.
      eapply list_elem_of_lookup_2, Hi.
Qed.

Lemma apply_prediction_writes_n_position_only_witness :
  exists s',
    UNet.apply_prediction displaced_scene_grid [1; 2; 3; 4; 5; 6]%float = Ok s' /\
    position (UNet.n_sparse_grid_mo s') !! 0 = Some (V3 5 5 6) /\
    length (position (UNet.n_sparse_grid_mo s')) = 1 /\
    only_n_position_changed_UNet displaced_scene_grid s'.
Proof.
  destruct (proj2 apply_prediction_writes_n_position_only displaced_scene_grid
              [1; 2; 3; 4; 5; 6]%float)
    as (s' & U_sparse & Hrun & _ & _ & Hframe & Hlen & Hentry).
  - reflexivity.
  - repeat constructor.
  - reflexivity.
  - exists s'. split; [exact Hrun|]. split; [|split; [exact Hlen | exact Hframe]].
    apply (Hentry 0 1 (V3 1 0 0) 4%float 5%float 6%float); reflexivity.
Defined.

(** ** Round trip through the grid *)

(** Modelled from the spec: the scene set-up that builds the index table and
    the regular grid's rest shape is not part of the sources.  The table maps
    each sparse-grid node to its own regular-grid node, inside the grid; the
    FEM and prediction models have one node per table entry; and the regular
    grid's rest shape at a node's slot is that node's rest position. *)
Definition grid_table_ok (s : UNet.LiverTraining) : Prop :=
  NoDup (UNet.idx_sparse_to_regular s) /\
  Forall (fun j => j < UNet.data_size s) (UNet.idx_sparse_to_regular s) /\
  length (position (UNet.f_sparse_grid_mo s))
  = length (UNet.idx_sparse_to_regular s) /\
  length (rest_position (UNet.n_sparse_grid_mo s))
  = length (UNet.idx_sparse_to_regular s) /\
  length (UNet.regular_grid_rest_shape s) = UNet.data_size s /\
  forall i j, UNet.idx_sparse_to_regular s !! i = Some j ->
              UNet.regular_grid_rest_shape s !! j
              = rest_position (UNet.f_sparse_grid_mo s) !! i.


(** One sparse node, displaced from [(1, 0, 0)] to [(1, 2, 0)], on two slots. *)
Definition displaced : MechanicalObject :=
  {| position := [V3 1 2 0]; rest_position := [V3 1 0 0] |}.

Definition displaced_scene : UNet.LiverTraining :=
  {| UNet.create_model_fem := true;
     UNet.f_surface_mo := displaced;
     UNet.n_surface_mo := at_rest;
     UNet.f_sparse_grid_mo := displaced;
     UNet.n_sparse_grid_mo := at_rest;
     UNet.force_field := [];
     UNet.regular_grid := one_cell_grid;
     UNet.nb_nodes_regular_grid := 2;
     UNet.data_size := 2;
     UNet.idx_sparse_to_regular := [1];
     UNet.regular_grid_rest_shape := [V3 0 0 0; V3 1 0 0] |}.

Lemma displaced_scene_table_ok : grid_table_ok displaced_scene.
Proof.
  repeat split.
  - apply NoDup_singleton.
  - repeat constructor.
  - intros [|i] j H; [injection H as <-; reflexivity | discriminate].
Qed.


(** ** Sessions: the shapes declared at initialisation *)

(** Modelled from the spec: the engine's time step is not part of the
    sources.  A step moves nodes and may change the active force fields; it
    keeps the node count and the rest positions of every node collection. *)
Definition same_nodes (mo mo' : MechanicalObject) : Prop :=
  length (position mo') = length (position mo) /\
  rest_position mo' = rest_position mo.

(** Modelled from the spec: a force field of the engine names nodes of the
    surface, with one force per node or one force for all. *)
Definition field_ok_FC (n : nat) (cff : FC.ForceField) : Prop :=
  Forall (fun i => i < n) (FC.indices cff) /\
  (length (FC.forces cff) = length (FC.indices cff) \/ length (FC.forces cff) = 1).

(** One event of a session of the coincident variant after initialisation:
    a time step of the engine, or a prediction written back. *)
Inductive step_FC : FC.LiverTraining -> FC.LiverTraining -> Prop :=
| animate_FC s s' :
    same_nodes (FC.n_surface_mo s) (FC.n_surface_mo s') ->
    same_nodes (FC.f_sparse_grid_mo s) (FC.f_sparse_grid_mo s') ->
    same_nodes (FC.n_sparse_grid_mo s) (FC.n_sparse_grid_mo s') ->
    FC.input_size s' = FC.input_size s ->
    FC.output_size s' = FC.output_size s ->
    Forall (field_ok_FC (length (position (FC.n_surface_mo s')))) (FC.force_field s') ->
    step_FC s s'
| predict_FC s prediction s' :
    FC.apply_prediction s prediction = Ok s' ->
    step_FC s s'.

(** Modelled from the spec: the scene set-up is not part of the sources.  The
    FEM and prediction models are two copies of one mesh, and the force fields
    act on the surface. *)
Definition scene_ok_FC (s : FC.LiverTraining) : Prop :=
  length (position (FC.f_sparse_grid_mo s))
  = length (position (FC.n_sparse_grid_mo s)) /\
  length (rest_position (FC.f_sparse_grid_mo s))
  = length (position (FC.f_sparse_grid_mo s)) /\
  Forall (field_ok_FC (length (position (FC.n_surface_mo s)))) (FC.force_field s).

(** Modelled from the spec: every forced node has a rest position inside the
    lattice, and the valid corners of its cell are slots of the arrays. *)
Definition forces_on_grid (s : UNet.LiverTraining) : Prop :=
  forall ff i, ff ∈ UNet.force_field s -> i ∈ UNet.indices ff ->
    exists p cell,
      rest_position (UNet.surface_of s) !! i = Some p /\
      UNet.cell_index_containing (UNet.regular_grid s) p = Ok cell /\
      forall node, node ∈ UNet.node_indices_of (UNet.regular_grid s) cell ->
                   node < UNet.nb_nodes_regular_grid s -> node < UNet.data_size s.

(** Modelled from the spec: the index table fits the grid and the FEM model. *)
Definition scene_ok_UNet (s : UNet.LiverTraining) : Prop :=
  forces_on_grid s /\
  Forall (fun j => j < UNet.data_size s) (UNet.idx_sparse_to_regular s) /\
  length (position (UNet.f_sparse_grid_mo s))
  = length (UNet.idx_sparse_to_regular s) /\
  length (UNet.regular_grid_rest_shape s) = UNet.data_size s.

(** One event of a session of the grid variant. *)
Inductive step_UNet : UNet.LiverTraining -> UNet.LiverTraining -> Prop :=
| animate_UNet s s' :
    UNet.create_model_fem s' = UNet.create_model_fem s ->
    same_nodes (UNet.f_surface_mo s) (UNet.f_surface_mo s') ->
    same_nodes (UNet.n_surface_mo s) (UNet.n_surface_mo s') ->
    same_nodes (UNet.f_sparse_grid_mo s) (UNet.f_sparse_grid_mo s') ->
    same_nodes (UNet.n_sparse_grid_mo s) (UNet.n_sparse_grid_mo s') ->
    UNet.regular_grid s' = UNet.regular_grid s ->
    UNet.nb_nodes_regular_grid s' = UNet.nb_nodes_regular_grid s ->
    UNet.data_size s' = UNet.data_size s ->
    UNet.idx_sparse_to_regular s' = UNet.idx_sparse_to_regular s ->
    UNet.regular_grid_rest_shape s' = UNet.regular_grid_rest_shape s ->
    forces_on_grid s' ->
    step_UNet s s'
| predict_UNet s prediction s' :
    UNet.apply_prediction s prediction = Ok s' ->
    step_UNet s s'.

Lemma setitem_fancy_total (a : array) (idx : list nat) (vals : array) :
  Forall (fun i => i < length a) idx ->
  length vals = length idx \/ length vals = 1 ->
  exists a', setitem_fancy a idx vals = Ok a' /\ length a' = length a.
Proof.
  intros Hin Hvals.
  assert (exists vals', broadcast_to (length idx) vals = Ok vals') as [vals' Hb].
  { unfold broadcast_to. destruct (Nat.eqb_spec (length vals) (length idx)); [eauto|].
    destruct Hvals as [?|H1]; [contradiction|].
    destruct vals as [|v [|? ?]]; try discriminate. eauto. }
  exists (assign a idx vals'). split; [|apply length_assign].
  apply setitem_fancy_Ok. eauto.
Qed.

Lemma compute_input_FC_total s n :
  FC.input_size s = Some n ->
  Forall (field_ok_FC n) (FC.force_field s) ->
  exists F, FC.compute_input s = Ok F /\ shape_of F = n.
Proof.
  intros Hsz Hff. unfold FC.compute_input. rewrite Hsz. simpl.
  apply (for_each_total FC.scatter_field (fun G : array => length G = n)).
  - intros G cff Hin HG. rewrite Forall_forall in Hff.
    destruct (Hff cff Hin) as [Hidx Hvals].
    destruct (setitem_fancy_total G (FC.indices cff) (FC.forces cff))
      as (G' & HG' & Hlen); [now rewrite HG | exact Hvals |].
    exists G'. split; [exact HG' | congruence].
  - apply length_zeros.
Qed.

Lemma compute_input_FC_shape s n F :
  FC.input_size s = Some n -> FC.compute_input s = Ok F -> shape_of F = n.
Proof.
  intros Hsz H. unfold FC.compute_input in H. rewrite Hsz in H. simpl in H.
  apply (for_each_invariant FC.scatter_field (fun G : array => length G = n)
           (FC.force_field s)) with (s := zeros n); [|apply length_zeros|exact H].
  intros G cff G' _ HG Hstep. rewrite <- HG.
  eapply setitem_fancy_length, Hstep.
Qed.

Lemma compute_input_UNet_shape s F :
  UNet.compute_input s = Ok F -> shape_of F = UNet.data_size s.
Proof.
  intros H. unfold UNet.compute_input in H. unfold shape_of.
  rewrite (fields_length _ _ _ _ _ H). apply length_zeros.
Qed.

Lemma compute_input_UNet_total s :
  forces_on_grid s -> exists F, UNet.compute_input s = Ok F.
Proof.
  intros Hgrid. unfold UNet.compute_input.
  destruct (for_each_total (UNet.encode_field s (UNet.surface_of s))
              (fun G : array => length G = UNet.data_size s) (UNet.force_field s))
    with (s := zeros (UNet.data_size s)) as (F & HF & _);
    [|apply length_zeros|eauto].
  intros G ff Hff HG. unfold UNet.encode_field.
  apply (for_each_total (UNet.encode_index s (UNet.surface_of s) ff)
           (fun G : array => length G = UNet.data_size s)); [|exact HG].
  intros G1 i Hi HG1.
  destruct (Hgrid ff i Hff Hi) as (p & cell & Hp & Hc & Hslots).
  destruct (corners_total (UNet.nb_nodes_regular_grid s) (UNet.force ff)
              (UNet.node_indices_of (UNet.regular_grid s) cell) G1) as [G2 HG2].
  { intros node Hn Hlt. rewrite HG1. auto. }
  exists G2. split.
  - apply encode_index_Ok. eauto.
  - rewrite <- HG1. eapply corners_length, HG2.
Qed.

(** What a session of the coincident variant keeps true after initialisation. *)
Definition session_inv_FC (n_in n_out : nat) (s : FC.LiverTraining) : Prop :=
  FC.input_size s = Some n_in /\
  FC.output_size s = Some n_out /\
  length (position (FC.n_surface_mo s)) = n_in /\
  length (position (FC.f_sparse_grid_mo s)) = n_out /\
  length (rest_position (FC.f_sparse_grid_mo s)) = n_out /\
  Forall (field_ok_FC n_in) (FC.force_field s).

Lemma init_inv_FC s0 :
  scene_ok_FC s0 ->
  session_inv_FC (length (position (FC.n_surface_mo s0)))
                 (length (position (FC.n_sparse_grid_mo s0)))
                 (FC.onSimulationInitDoneEvent s0).
Proof.
  intros (Hfn & Hrest & Hff). unfold session_inv_FC. simpl.
  repeat split; congruence || assumption.
Qed.

Lemma step_inv_FC n_in n_out s s' :
  session_inv_FC n_in n_out s -> step_FC s s' -> session_inv_FC n_in n_out s'.
Proof.
  intros (Hin & Hout & Hsurf & Hpos & Hrest & Hff) Hstep.
  destruct Hstep as [s s' [Hs1 _] [Hf1 Hf2] _ Hi Ho Hff' | s prediction s' Hp].
  - unfold session_inv_FC. rewrite Hi, Ho, Hs1, Hf1, Hf2.
    repeat split; try assumption. rewrite <- Hsurf, <- Hs1. exact Hff'.
  - apply apply_prediction_FC_inv in Hp as [p ->].
    unfold session_inv_FC. simpl. auto 10.
Qed.

Lemma session_inv_FC_shapes n_in n_out s :
  session_inv_FC n_in n_out s ->
  (exists F, FC.compute_input s = Ok F /\ shape_of F = n_in) /\
  (exists U, FC.compute_output s = Ok U /\ shape_of U = n_out).
Proof.
  intros (Hin & Hout & Hsurf & Hpos & Hrest & Hff). split.
  - now apply compute_input_FC_total.
  - eexists. split.
    + unfold FC.compute_output, subtract. apply elementwise_same_length. congruence.
    + unfold shape_of. rewrite zip_with_same_length; congruence.
Qed.

Definition session_inv_UNet (n : nat) (s : UNet.LiverTraining) : Prop :=
  UNet.data_size s = n /\ scene_ok_UNet s.

Lemma forces_on_grid_predicted s p :
  forces_on_grid s -> forces_on_grid (UNet.set_n_sparse_position s p).
Proof. intros H. exact H. Qed.

Lemma step_inv_UNet n s s' :
  session_inv_UNet n s -> step_UNet s s' -> session_inv_UNet n s'.
Proof.
  intros (Hn & Hgrid & Hin & Hpos & Hrest) Hstep.
  destruct Hstep
    as [s s' _ _ _ [Hf _] _ _ _ Hd Hi Hr Hgrid' | s prediction s' Hp].
  - unfold session_inv_UNet, scene_ok_UNet. rewrite Hd, Hi, Hr, Hf. auto.
  - apply apply_prediction_UNet_inv in Hp as [p ->].
    unfold session_inv_UNet, scene_ok_UNet. simpl.
    auto using forces_on_grid_predicted.
Qed.

Lemma session_inv_UNet_shapes n s :
  session_inv_UNet n s ->
  (exists F, UNet.compute_input s = Ok F /\ shape_of F = n) /\
  (exists U, UNet.compute_output s = Ok U /\ shape_of U = n).
Proof.
  intros (Hn & Hgrid & Hin & Hpos & Hrest). split.
  - destruct (compute_input_UNet_total s Hgrid) as [F HF].
    exists F. split; [exact HF|]. rewrite <- Hn. now apply compute_input_UNet_shape.
  - eexists. split; [now apply grid_output_Ok|].
    unfold shape_of.
    rewrite zip_with_same_length; rewrite length_assign, length_zeros; congruence.
Qed.

Lemma rtc_invariant {A : Type} (R : relation A) (P : A -> Prop) x z :
  P x -> (forall y y', P y -> R y y' -> P y') -> rtc R x z -> P z.
Proof.
  intros Hx Hstep Hrun. induction Hrun as [|x y z Hxy _ IH]; [exact Hx|].
  apply IH. eapply Hstep; eauto.
Qed.

(** C4.  At every point of a session, [compute_input] and [compute_output]
    return arrays of the input and output shapes fixed at initialisation, and
    those shapes never change. *)
Theorem shape_invariance :
  (forall s0 s : FC.LiverTraining,
      scene_ok_FC s0 ->
      rtc step_FC (FC.onSimulationInitDoneEvent s0) s ->
      FC.input_size s = FC.input_size (FC.onSimulationInitDoneEvent s0) /\
      FC.output_size s = FC.output_size (FC.onSimulationInitDoneEvent s0) /\
      (exists F, FC.compute_input s = Ok F /\
                 Some (shape_of F) = FC.input_size (FC.onSimulationInitDoneEvent s0)) /\
      (exists U, FC.compute_output s = Ok U /\
                 Some (shape_of U) = FC.output_size (FC.onSimulationInitDoneEvent s0))) /\
  (forall s0 s : UNet.LiverTraining,
      scene_ok_UNet s0 ->
      rtc step_UNet s0 s ->
      UNet.data_size s = UNet.data_size s0 /\
      (exists F, UNet.compute_input s = Ok F /\ shape_of F = UNet.data_size s0) /\
      (exists U, UNet.compute_output s = Ok U /\ shape_of U = UNet.data_size s0)).
Proof.
  split.
  - intros s0 s Hok Hrun.
    assert (Hinv : session_inv_FC (length (position (FC.n_surface_mo s0)))
                                  (length (position (FC.n_sparse_grid_mo s0))) s).
    { eapply rtc_invariant; [now apply init_inv_FC | | exact Hrun].
      intros y y'. apply step_inv_FC. }
    destruct (session_inv_FC_shapes _ _ _ Hinv) as [(F & HF & HsF) [U [HU HsU]]].
    destruct Hinv as (Hin & Hout & _). simpl.
    repeat split; try assumption.
    + exists F. split; [exact HF | now rewrite HsF].
    + exists U. split; [exact HU | now rewrite HsU].
  - intros s0 s Hok Hrun.
    assert (Hinv : session_inv_UNet (UNet.data_size s0) s).
    { eapply rtc_invariant; [split; [reflexivity | exact Hok] | | exact Hrun].
      intros y y'. apply step_inv_UNet. }
    destruct (session_inv_UNet_shapes _ _ Hinv) as [HF HU].
    destruct Hinv as [Hn _]. auto.
Qed.

(** A one-node scene of the coincident variant, pulled down at its node. *)
Definition pulled_scene_FC : FC.LiverTraining :=
  {| FC.n_surface_mo := one_node;
     FC.f_sparse_grid_mo := displaced;
     FC.n_sparse_grid_mo := at_rest;
     FC.force_field := [{| FC.indices := [0]; FC.forces := [V3 0 (-1) 0] |}];
     FC.input_size := None;
     FC.output_size := None |}.

Lemma pulled_scene_FC_ok : scene_ok_FC pulled_scene_FC.
Proof.
  split; [reflexivity | split; [reflexivity|]].
  repeat constructor.
Qed.

(** A session of the coincident variant: after initialisation the engine
    moves the FEM node and replaces the force field, then a prediction is
    written back. *)
Definition after_step_FC : FC.LiverTraining :=
  {| FC.n_surface_mo := one_node;
     FC.f_sparse_grid_mo := {| position := [V3 1 3 0];
                               rest_position := [V3 1 0 0] |};
     FC.n_sparse_grid_mo := at_rest;
     FC.force_field := [{| FC.indices := [0]; FC.forces := [V3 0 1 0] |}];
     FC.input_size := Some 1;
     FC.output_size := Some 1 |}.

Definition after_prediction_FC : FC.LiverTraining :=
  FC.set_n_sparse_position after_step_FC [V3 2 2 3].

Lemma session_run_FC :
  rtc step_FC (FC.onSimulationInitDoneEvent pulled_scene_FC) after_prediction_FC.
Proof.
  apply rtc_l with after_step_FC.
  - apply animate_FC; try (split; reflexivity); try reflexivity.
    repeat constructor.
  - apply rtc_once. apply predict_FC with [1; 2; 3]%float. reflexivity.
Qed.

(** A session of the grid variant, in the same way. *)
Definition with_fields (s : UNet.LiverTraining) (ffs : list UNet.ForceField)
  : UNet.LiverTraining :=
  {| UNet.create_model_fem := UNet.create_model_fem s;
     UNet.f_surface_mo := UNet.f_surface_mo s;
     UNet.n_surface_mo := UNet.n_surface_mo s;
     UNet.f_sparse_grid_mo := UNet.f_sparse_grid_mo s;
     UNet.n_sparse_grid_mo := UNet.n_sparse_grid_mo s;
     UNet.force_field := ffs;
     UNet.regular_grid := UNet.regular_grid s;
     UNet.nb_nodes_regular_grid := UNet.nb_nodes_regular_grid s;
     UNet.data_size := UNet.data_size s;
     UNet.idx_sparse_to_regular := UNet.idx_sparse_to_regular s;
     UNet.regular_grid_rest_shape := UNet.regular_grid_rest_shape s |}.

Lemma four_corner_forces_on_grid ffs :
  Forall (fun ff => UNet.indices ff = [0]) ffs ->
  forces_on_grid (with_fields four_corner_scene ffs).
Proof.
  intros Hall ff i Hff Hi. rewrite Forall_forall in Hall.
  rewrite (Hall ff Hff) in Hi. apply list_elem_of_singleton in Hi as ->.
  exists zero3, 0. split; [reflexivity|]. split; [reflexivity|].
  intros node _ Hlt. exact Hlt.
Qed.

Definition after_step_UNet : UNet.LiverTraining :=
  {| UNet.create_model_fem := false;
     UNet.f_surface_mo := one_node;
     UNet.n_surface_mo := one_node;
     UNet.f_sparse_grid_mo := {| position := [V3 0 1 0];
                                 rest_position := [zero3] |};
     UNet.n_sparse_grid_mo := one_node;
     UNet.force_field := [up_field];
     UNet.regular_grid := four_corner_grid;
     UNet.nb_nodes_regular_grid := 4;
     UNet.data_size := 4;
     UNet.idx_sparse_to_regular := [0];
     UNet.regular_grid_rest_shape := zeros 4 |}.

Definition after_prediction_UNet : UNet.LiverTraining :=
  UNet.set_n_sparse_position after_step_UNet [V3 1 2 3].

Lemma four_corner_scene_ok : scene_ok_UNet four_corner_scene.
Proof.
  split; [|split; [repeat constructor | split; reflexivity]].
  apply (four_corner_forces_on_grid [down_field]). repeat constructor.
Qed.

Lemma session_run_UNet : rtc step_UNet four_corner_scene after_prediction_UNet.
Proof.
  apply rtc_l with after_step_UNet.
  - apply animate_UNet; try (split; reflexivity); try reflexivity.
    apply (four_corner_forces_on_grid [up_field]). repeat constructor.
  - apply rtc_once.
    apply predict_UNet with [1; 2; 3; 4; 5; 6; 7; 8; 9; 10; 11; 12]%float.
    reflexivity.
Qed.

Lemma shape_invariance_witness :
  (FC.input_size after_prediction_FC = Some 1 /\
   FC.output_size after_prediction_FC = Some 1 /\
   (exists F, FC.compute_input after_prediction_FC = Ok F /\
              Some (shape_of F) = Some 1) /\
   (exists U, FC.compute_output after_prediction_FC = Ok U /\
              Some (shape_of U) = Some 1)) /\
  (UNet.data_size after_prediction_UNet = 4 /\
   (exists F, UNet.compute_input after_prediction_UNet = Ok F /\ shape_of F = 4) /\
   (exists U, UNet.compute_output after_prediction_UNet = Ok U /\ shape_of U = 4)).
Proof.
  split.
  - apply (proj1 shape_invariance pulled_scene_FC after_prediction_FC).
    + exact pulled_scene_FC_ok.
    + exact session_run_FC.
  - apply (proj2 shape_invariance four_corner_scene after_prediction_UNet).
    + exact four_corner_scene_ok.
    + exact session_run_UNet.
Defined.

(** ** Force scattering on coincident representations *)

Lemma scatter_field_other (F F' : array) cff k :
  k ∉ FC.indices cff -> FC.scatter_field F cff = Ok F' -> F' !! k = F !! k.
Proof.
  intros Hk H. apply setitem_fancy_Ok in H as (vals & _ & _ & ->).
  now apply assign_lookup_notin.
Qed.

Lemma broadcast_to_lookup k (forces vals : array) p v :
  broadcast_to k forces = Ok vals -> p < k ->
  (length forces = k /\ forces !! p = Some v) \/ forces = [v] ->
  vals !! p = Some v.
Proof.
  intros Hb Hp Hv. unfold broadcast_to in Hb.
  destruct (Nat.eqb_spec (length forces) k) as [Hlen|Hne].
  - injection Hb as <-. destruct Hv as [[_ Hv]| ->]; [exact Hv|].
    simpl in Hlen. subst k. destruct p; [reflexivity | lia].
  - destruct Hv as [[Hlen _]| ->]; [contradiction|].
    injection Hb as <-. now apply lookup_replicate_2.
Qed.

(** C10.  On coincident representations each field's assignment overwrites the
    earlier ones: the returned array holds, at a node index, the force of the
    last field listing that index: the entry of [forces] at the index's place
    when the field has one force per index, its single force otherwise. *)
Theorem later_field_overwrites s earlier later after F k p v :
  FC.force_field s = earlier ++ later :: after ->
  (forall cff, cff ∈ after -> k ∉ FC.indices cff) ->
  FC.indices later !! p = Some k ->
  (forall q, p < q -> FC.indices later !! q <> Some k) ->
  (length (FC.forces later) = length (FC.indices later) /\
   FC.forces later !! p = Some v) \/
  FC.forces later = [v] ->
  FC.compute_input s = Ok F ->
  F !! k = Some v.
Proof.
  intros Hff Hafter Hp Hlast Hv H.
  unfold FC.compute_input in H.
  destruct (FC.declared (FC.input_size s)) as [sh|]; simpl in H; [|discriminate].
  rewrite Hff in H.
  apply for_each_app in H as (F1 & _ & H).
  apply for_each_cons in H as (F2 & Hlater & Hrest).
  assert (H2 : F2 !! k = Some v).
  { apply setitem_fancy_Ok in Hlater as (vals & Hb & Hin & ->).
    apply (assign_lookup_last _ _ _ p); auto.
    - eapply broadcast_to_lookup; [exact Hb | | exact Hv].
      eapply lookup_lt_Some, Hp.
    - rewrite Forall_forall in Hin. apply Hin.
      eapply list_elem_of_lookup_2, Hp. }
  apply (for_each_invariant FC.scatter_field (fun G : array => G !! k = Some v) after)
    with (s := F2); [|exact H2|exact Hrest].
  intros G cff G' Hin HG Hstep. rewrite <- HG.
  eapply scatter_field_other; eauto.
Qed.

(** Two fields on node 0: the first pulls down, the second pushes up. *)
Definition pull_FC : FC.ForceField :=
  {| FC.indices := [0]; FC.forces := [V3 0 (-1) 0] |}.

Definition push_FC : FC.ForceField :=
  {| FC.indices := [0]; FC.forces := [V3 0 1 0] |}.

Definition pull_push_scene : FC.LiverTraining :=
  {| FC.n_surface_mo := one_node;
     FC.f_sparse_grid_mo := one_node;
     FC.n_sparse_grid_mo := one_node;
     FC.force_field := [pull_FC; push_FC];
     FC.input_size := Some 1;
     FC.output_size := Some 1 |}.

(** Two nodes: a field pulls node 1 down, then a field with a single force
    pushes both nodes up. *)
Definition pull_second_FC : FC.ForceField :=
  {| FC.indices := [1]; FC.forces := [V3 0 (-1) 0] |}.

Definition push_both_FC : FC.ForceField :=
  {| FC.indices := [0; 1]; FC.forces := [V3 0 1 0] |}.

Definition two_node_scene : FC.LiverTraining :=
  {| FC.n_surface_mo := {| position := [zero3; zero3];
                           rest_position := [zero3; zero3] |};
     FC.f_sparse_grid_mo := one_node;
     FC.n_sparse_grid_mo := one_node;
     FC.force_field := [pull_second_FC; push_both_FC];
     FC.input_size := Some 2;
     FC.output_size := Some 1 |}.

Lemma later_field_overwrites_witness :
  FC.compute_input two_node_scene = Ok [V3 0 1 0; V3 0 1 0] /\
  [V3 0 1 0; V3 0 1 0] !! 1 = Some (V3 0 1 0).
Proof.
  split; [reflexivity|].
  apply (later_field_overwrites two_node_scene [pull_second_FC] push_both_FC []
           [V3 0 1 0; V3 0 1 0] 1 1 (V3 0 1 0)).
  - reflexivity.
  - intros cff H. apply list_elem_of_In in H. destruct H.
  - reflexivity.
  - intros [|[|q]] Hq; [lia | lia | discriminate].
  - right. reflexivity.
  - reflexivity.
Defined.

(** ** The launcher *)

Section LauncherFacts.
Import Launcher.
Open Scope string_scope.

(** The first character removed, if there is one. *)
Definition drop_first (s : string) : string :=
  match s with
  | EmptyString => EmptyString
  | String _ s' => s'
  end.

(** The last character removed, if there is one. *)
Fixpoint drop_last (s : string) : string :=
  match s with
  | EmptyString => EmptyString
  | String c s' =>
      match s' with
      | EmptyString => EmptyString
      | String _ _ => String c (drop_last s')
      end
  end.

(** C8 in its own words: the first and the last character removed. *)
Definition strip_ends (s : string) : string := drop_last (drop_first s).

Lemma substring_init c s :
  substring 0 (String.length s) (String c s) = drop_last (String c s).
Proof.
  revert c. induction s as [|d s IH]; intros c; [reflexivity|].
  change (substring 0 (String.length (String d s)) (String c (String d s)))
    with (String c (substring 0 (String.length s) (String d s))).
  rewrite IH. reflexivity.
Qed.

Lemma substring_all_but_last s :
  substring 0 (String.length s - 1) s = drop_last s.
Proof.
  destruct s as [|c s]; [reflexivity|].
  replace (String.length (String c s) - 1) with (String.length s)
    by (simpl; lia).
  apply substring_init.
Qed.

(** The slice [s[1:-1]] removes the first and the last character. *)
Lemma slice_strip_ends s : slice 1 (-1) s = strip_ends s.
Proof.
  unfold slice, slice_bound, strip_ends. destruct s as [|c s]; [reflexivity|].
  cbn [Z.ltb Z.compare String.length drop_first].
  replace (Z.to_nat (Z.max (-1 + Z.of_nat (S (String.length s))) 0))
    with (String.length s) by lia.
  cbn [Z.to_nat Pos.to_nat Pos.iter_op Nat.min substring].
  apply substring_all_but_last.
Qed.

(** The rest of a string after its first [k] characters. *)
Fixpoint skip_chars (k : nat) (s : string) : string :=
  match k, s with
  | S k', String _ s' => skip_chars k' s'
  | _, _ => s
  end.

Lemma append_assoc (a b c : string) : (a ++ b) ++ c = a ++ (b ++ c).
Proof. induction a as [|x a IH]; simpl; [reflexivity | now rewrite IH]. Qed.

Lemma append_empty_r (a : string) : a ++ "" = a.
Proof. induction a as [|x a IH]; simpl; [reflexivity | now rewrite IH]. Qed.

Lemma prefix_skip sep s :
  String.prefix sep s = true -> sep ++ skip_chars (String.length sep) s = s.
Proof.
  revert s. induction sep as [|c sep IH]; intros s H; [reflexivity|].
  destruct s as [|d s]; [discriminate|]. simpl in H.
  destruct (ascii_dec c d) as [->|]; [|discriminate].
  simpl. now rewrite IH.
Qed.

Lemma split_from_cons sep k piece s :
  exists first rest, split_from sep k piece s = first :: rest.
Proof.
  revert k piece. induction s as [|c s IH]; intros k piece; cbn [split_from];
    [eauto|].
  destruct k; [|apply IH].
  destruct (String.prefix sep (String c s)); [eauto | apply IH].
Qed.

Lemma concat_two sep a b l :
  String.concat sep (a :: b :: l) = a ++ sep ++ String.concat sep (b :: l).
Proof. reflexivity. Qed.

(** Joining the pieces with the separator gives the string back. *)
Lemma concat_split_from c sep s k piece :
  String.concat (String c sep) (split_from (String c sep) k piece s)
  = piece ++ skip_chars k s.
Proof.
  revert k piece. induction s as [|d s IH]; intros k piece.
  - simpl. destruct k; simpl; now rewrite append_empty_r.
  - destruct k as [|k]; [|apply IH].
    cbn [split_from skip_chars].
    destruct (String.prefix (String c sep) (String d s)) eqn:Hp.
    + destruct (split_from_cons (String c sep)
                  (String.length (String c sep) - 1) EmptyString s)
        as (first & rest & Hsplit).
      pose proof (IH (String.length (String c sep) - 1) EmptyString) as Hrec.
      rewrite Hsplit in *. rewrite concat_two, Hrec.
      apply prefix_skip in Hp. simpl in Hp. injection Hp as -> Hp.
      simpl. rewrite Nat.sub_0_r. now rewrite Hp.
    + rewrite IH, append_assoc. reflexivity.
Qed.

Lemma concat_split c sep s :
  String.concat (String c sep) (split (String c sep) s) = s.
Proof. unfold split. now rewrite concat_split_from. Qed.

(** C7.  With any number of arguments other than the seven expected after
    the program name, the launcher prints the usage line, which names the
    seven parameters, and exits with code 1; that is all it does: nothing
    is imported and no client is constructed. *)
Theorem launcher_usage_on_wrong_arity host prog args :
  length args <> 7 ->
  main host (prog :: args)
  = ([Print ("Usage: python3 " ++ prog ++
             " <file_path> <environment_class> <ip_address> <port> <instance_id> <max_instance_count> <visu_db>")],
     Exit 1).
Proof.
  intros H. unfold main.
  destruct (Nat.eqb_spec (length (prog :: args)) 8) as [Heq|_]; [|reflexivity].
  simpl in Heq. lia.
Qed.

End LauncherFacts.

Definition posix : Launcher.Host :=
  {| Launcher.sep := "/"%char;
     Launcher.dirname := fun path => path;
     Launcher.int := fun _ => Raise ValueError;
     Launcher.import_from := fun _ _ => Ok tt;
     Launcher.new_client := fun _ => Ok tt;
     Launcher.initialize := fun _ => Ok tt;
     Launcher.launch := fun _ => Ok tt |}.

Lemma launcher_usage_on_wrong_arity_witness :
  Launcher.main posix ["launcher.py"; "Liver.py"; "LiverTraining"]%string
  = ([Launcher.Print
        "Usage: python3 launcher.py <file_path> <environment_class> <ip_address> <port> <instance_id> <max_instance_count> <visu_db>"],
     Launcher.Exit 1).
Proof.
  apply (launcher_usage_on_wrong_arity posix "launcher.py"
           ["Liver.py"; "LiverTraining"]%string).
  simpl. lia.
Defined.



(** * Further properties of the environments *)

(** ** Writing a prediction back, continued *)

(** On binary64 a finite number minus itself is zero. *)
Lemma finite_minus_self x : PrimFloat.is_finite x = true -> (x - x)%float = 0%float.
Proof.
  intros H. apply FloatAxioms.Prim2SF_inj. rewrite FloatAxioms.sub_spec.
  unfold PrimFloat.is_finite, PrimFloat.is_nan, PrimFloat.is_infinity in H.
  rewrite !FloatAxioms.eqb_spec, FloatAxioms.abs_spec in H.
  change (Prim2SF infinity) with (S754_infinity false) in H.
  change (Prim2SF 0) with (S754_zero false).
  destruct (Prim2SF x) as [sg|sg| |sg m e].
  - destruct sg; reflexivity.
  - destruct sg; discriminate.
  - discriminate.
  - unfold SF64sub, SFsub. rewrite Z.sub_diag. reflexivity.
Qed.

Definition finite3 (v : vec3) : bool :=
  PrimFloat.is_finite (vx v) && PrimFloat.is_finite (vy v) && PrimFloat.is_finite (vz v).

Lemma sub3_self v : finite3 v = true -> sub3 v v = zero3.
Proof.
  unfold finite3, sub3, zero3. intros H.
  apply andb_prop in H as [H Hz]. apply andb_prop in H as [Hx Hy].
  now rewrite !finite_minus_self.
Qed.

Lemma zip_with_sub3_self (a : array) :
  Forall (fun v => finite3 v = true) a -> zip_with sub3 a a = zeros (length a).
Proof.
  induction 1 as [|v a Hv _ IH]; [reflexivity|].
  simpl. rewrite sub3_self by exact Hv. unfold zeros in IH. now rewrite IH.
Qed.

(** X1.  On coincident representations, an undeformed mesh (current positions
    equal to rest positions, all coordinates finite) gives an all-zero ground
    truth of the mesh's size. *)
Theorem undeformed_output_is_zero (s : FC.LiverTraining) :
  position (FC.f_sparse_grid_mo s) = rest_position (FC.f_sparse_grid_mo s) ->
  Forall (fun v => finite3 v = true) (position (FC.f_sparse_grid_mo s)) ->
  FC.compute_output s = Ok (zeros (length (position (FC.f_sparse_grid_mo s)))).
Proof.
  intros Heq Hfin. unfold FC.compute_output, subtract. rewrite <- Heq.
  rewrite elementwise_same_length by reflexivity.
  now rewrite zip_with_sub3_self.
Qed.

Definition rest_scene_FC : FC.LiverTraining :=
  {| FC.n_surface_mo := one_node;
     FC.f_sparse_grid_mo := at_rest;
     FC.n_sparse_grid_mo := at_rest;
     FC.force_field := [];
     FC.input_size := Some 1;
     FC.output_size := Some 1 |}.

Lemma undeformed_output_is_zero_witness :
  FC.compute_output rest_scene_FC = Ok (zeros 1).
Proof.
  apply (undeformed_output_is_zero rest_scene_FC).
  - reflexivity.
  - repeat constructor.
Defined.


Definition displaced_scene_FC : FC.LiverTraining :=
  {| FC.n_surface_mo := one_node;
     FC.f_sparse_grid_mo := displaced;
     FC.n_sparse_grid_mo := at_rest;
     FC.force_field := [];
     FC.input_size := Some 1;
     FC.output_size := Some 1 |}.


(** X3.  A prediction whose flat length is not the product of the output
    shape is rejected with [ValueError], in both variants; no state results. *)
Theorem apply_prediction_rejects_wrong_length :
  (forall (s : FC.LiverTraining) prediction sh,
      FC.output_size s = Some sh ->
      length prediction <> size_of sh ->
      FC.apply_prediction s prediction = Raise ValueError) /\
  (forall (s : UNet.LiverTraining) prediction,
      length prediction <> size_of (UNet.data_size s) ->
      UNet.apply_prediction s prediction = Raise ValueError).
Proof.
  split.
  - intros s prediction sh Hsh Hlen.
    unfold FC.apply_prediction, FC.reshape_declared, reshape.
    rewrite Hsh. simpl.
    destruct (Nat.eqb_spec (length prediction) (size_of sh)); [contradiction|].
    reflexivity.
  - intros s prediction Hlen. unfold UNet.apply_prediction, reshape.
    destruct (Nat.eqb_spec (length prediction) (size_of (UNet.data_size s)));
      [contradiction|reflexivity].
Qed.

Lemma apply_prediction_rejects_wrong_length_witness :
  UNet.apply_prediction half_mapped_scene [1; 2; 3; 4]%float = Raise ValueError.
Proof.
  apply (proj2 apply_prediction_rejects_wrong_length half_mapped_scene).
  simpl. unfold size_of. lia.
Defined.

(** X4.  Predictions overwrite, they do not accumulate: after one prediction
    has been written, writing a second gives the state that writing the second
    alone would have given (so writing the same prediction twice changes
    nothing more). *)
Theorem apply_prediction_overwrites :
  (forall (s s1 : FC.LiverTraining) p1 p2,
      FC.apply_prediction s p1 = Ok s1 ->
      FC.apply_prediction s1 p2 = FC.apply_prediction s p2) /\
  (forall (s s1 : UNet.LiverTraining) p1 p2,
      UNet.apply_prediction s p1 = Ok s1 ->
      UNet.apply_prediction s1 p2 = UNet.apply_prediction s p2).
Proof.
  split.
  - intros s s1 p1 p2 H. apply apply_prediction_FC_inv in H as [q ->].
    unfold FC.apply_prediction. simpl.
    destruct (FC.reshape_declared p2 (FC.output_size s)) as [U|]; simpl;
      [|reflexivity].
    destruct (FC.add_reshaped _ U) as [p|]; reflexivity.
  - intros s s1 p1 p2 H. apply apply_prediction_UNet_inv in H as [q ->].
    unfold UNet.apply_prediction. simpl.
    destruct (reshape p2 (UNet.data_size s)) as [U|]; simpl; [|reflexivity].
    destruct (take U _) as [U_sparse|]; simpl; [|reflexivity].
    destruct (add _ U_sparse) as [p|]; reflexivity.
Qed.

Lemma apply_prediction_overwrites_witness :
  UNet.apply_prediction
    (UNet.set_n_sparse_position half_mapped_scene [V3 2 2 3])
    [0; 0; 0; 0; 0; 0]%float
  = UNet.apply_prediction half_mapped_scene [0; 0; 0; 0; 0; 0]%float.
Proof.
  apply (proj2 apply_prediction_overwrites half_mapped_scene
           (UNet.set_n_sparse_position half_mapped_scene [V3 2 2 3])
           [1; 2; 3; 4; 5; 6]%float).
  reflexivity.
Defined.

(** X5.  Writing a prediction back changes neither the input nor the ground
    truth the environment computes: the training sample never depends on the
    predictions received. *)
Theorem sample_independent_of_prediction :
  (forall (s s' : FC.LiverTraining) prediction,
      FC.apply_prediction s prediction = Ok s' ->
      FC.compute_input s' = FC.compute_input s /\
      FC.compute_output s' = FC.compute_output s) /\
  (forall (s s' : UNet.LiverTraining) prediction,
      UNet.apply_prediction s prediction = Ok s' ->
      UNet.compute_input s' = UNet.compute_input s /\
      UNet.compute_output s' = UNet.compute_output s).
Proof.
  split.
  - intros s s' prediction H. apply apply_prediction_FC_inv in H as [q ->].
    split; reflexivity.
  - intros s s' prediction H. apply apply_prediction_UNet_inv in H as [q ->].
    split; reflexivity.
Qed.

Lemma sample_independent_of_prediction_witness :
  UNet.compute_input (UNet.set_n_sparse_position half_mapped_scene [V3 2 2 3])
  = UNet.compute_input half_mapped_scene /\
  UNet.compute_output (UNet.set_n_sparse_position half_mapped_scene [V3 2 2 3])
  = UNet.compute_output half_mapped_scene.
Proof.
  apply (proj2 sample_independent_of_prediction half_mapped_scene
           (UNet.set_n_sparse_position half_mapped_scene [V3 2 2 3])
           [1; 2; 3; 4; 5; 6]%float).
  reflexivity.
Defined.

(** ** When the extraction raises *)

Lemma take_out_of_range (a : array) (idx : list nat) j :
  j ∈ idx -> length a <= j -> take a idx = Raise IndexError.
Proof.
  intros Hin Hj. induction idx as [|i idx IH]; [inversion Hin|].
  simpl. unfold getitem. destruct (a !! i) as [v|] eqn:Hi; [|reflexivity].
  simpl. rewrite IH; [reflexivity|].
  apply elem_of_cons in Hin as [->|Hin]; [|exact Hin].
  apply lookup_lt_Some in Hi. lia.
Qed.

Lemma forallb_in_range_false (idx : list nat) n j :
  j ∈ idx -> n <= j -> forallb (fun i => i <? n) idx = false.
Proof.
  intros Hin Hj. destruct (forallb (fun i => i <? n) idx) eqn:H; [|reflexivity].
  rewrite forallb_forall in H. apply list_elem_of_In in Hin.
  apply H, Nat.ltb_lt in Hin. lia.
Qed.

(** X6.  An index table with an entry at or beyond the array size makes both
    grid operations raise [IndexError]: nothing is scattered or gathered
    through a slot that does not exist. *)
Theorem table_entry_out_of_grid (s : UNet.LiverTraining) j :
  j ∈ UNet.idx_sparse_to_regular s ->
  UNet.data_size s <= j ->
  (length (position (UNet.f_sparse_grid_mo s))
   = length (UNet.idx_sparse_to_regular s) ->
   UNet.compute_output s = Raise IndexError) /\
  (forall prediction,
      length prediction = size_of (UNet.data_size s) ->
      UNet.apply_prediction s prediction = Raise IndexError).
Proof.
  intros Hin Hj. split.
  - intros Hpos. unfold UNet.compute_output, setitem_fancy, broadcast_to.
    rewrite Hpos, Nat.eqb_refl. simpl.
    rewrite (forallb_in_range_false _ _ j); [reflexivity | exact Hin |].
    now rewrite length_zeros.
  - intros prediction Hlen. unfold UNet.apply_prediction.
    rewrite reshape_Ok by exact Hlen. simpl.
    rewrite (take_out_of_range _ _ j); [reflexivity | exact Hin |].
    now rewrite length_rows_of.
Qed.

(** A table that points past a one-slot grid. *)
Definition stray_table_scene : UNet.LiverTraining :=
  {| UNet.create_model_fem := true;
     UNet.f_surface_mo := at_rest;
     UNet.n_surface_mo := at_rest;
     UNet.f_sparse_grid_mo := at_rest;
     UNet.n_sparse_grid_mo := at_rest;
     UNet.force_field := [];
     UNet.regular_grid := one_cell_grid;
     UNet.nb_nodes_regular_grid := 1;
     UNet.data_size := 1;
     UNet.idx_sparse_to_regular := [1];
     UNet.regular_grid_rest_shape := [V3 1 0 0] |}.

Lemma table_entry_out_of_grid_witness :
  (length [V3 1 0 0] = length [1] ->
   UNet.compute_output stray_table_scene = Raise IndexError) /\
  (forall prediction,
      length prediction = size_of 1 ->
      UNet.apply_prediction stray_table_scene prediction = Raise IndexError).
Proof.
  apply (table_entry_out_of_grid stray_table_scene 1).
  - left.
  - simpl. lia.
Defined.

Lemma broadcast_to_Ok_shape k (vals vals' : array) :
  broadcast_to k vals = Ok vals' -> length vals = k \/ length vals = 1.
Proof.
  unfold broadcast_to. destruct (Nat.eqb_spec (length vals) k); [auto|].
  destruct vals as [|v [|? ?]]; try discriminate. auto.
Qed.

(** X7.  On coincident representations [compute_input] returns exactly when
    every force field names only nodes of the surface and carries one force
    per node or a single force; otherwise it raises. *)
Theorem compute_input_FC_returns_iff (s : FC.LiverTraining) n :
  FC.input_size s = Some n ->
  (exists F, FC.compute_input s = Ok F) <->
  Forall (field_ok_FC n) (FC.force_field s).
Proof.
  intros Hsz. split.
  - intros [F H]. unfold FC.compute_input in H. rewrite Hsz in H. simpl in H.
    apply Forall_forall. intros cff Hin.
    destruct (for_each_elem _ _ _ _ _ Hin H)
      as (l1 & l2 & F1 & F2 & _ & H1 & Hstep & _).
    assert (Hlen : length F1 = n).
    { apply (for_each_invariant FC.scatter_field (fun G : array => length G = n) l1)
        with (s := zeros n); [|apply length_zeros|exact H1].
      intros G c G' _ HG Hc. rewrite <- HG. eapply setitem_fancy_length, Hc. }
    apply setitem_fancy_Ok in Hstep as (vals & Hb & Hidx & _).
    split; [now rewrite <- Hlen | eapply broadcast_to_Ok_shape, Hb].
  - intros Hok. destruct (compute_input_FC_total s n Hsz Hok) as (F & HF & _).
    eauto.
Qed.

Lemma compute_input_FC_returns_iff_witness :
  (exists F, FC.compute_input pull_push_scene = Ok F) <->
  Forall (field_ok_FC 1) (FC.force_field pull_push_scene).
Proof.
  apply (compute_input_FC_returns_iff pull_push_scene 1). reflexivity.
Defined.

(** A run that returns has found every forced node on the grid. *)
Lemma compute_input_UNet_needs_grid (s : UNet.LiverTraining) F :
  UNet.compute_input s = Ok F -> forces_on_grid s.
Proof.
  intros H ff i Hff Hi. unfold UNet.compute_input in H.
  destruct (for_each_elem _ _ _ _ _ Hff H)
    as (fs1 & fs2 & F1 & F2 & _ & H1 & Hfield & _).
  pose proof (fields_length _ _ _ _ _ H1) as Hlen1. rewrite length_zeros in Hlen1.
  unfold UNet.encode_field in Hfield.
  destruct (for_each_elem _ _ _ _ _ Hi Hfield)
    as (l1 & l2 & G1 & G2 & _ & Hl1 & Hindex & _).
  assert (HlenG : length G1 = UNet.data_size s).
  { rewrite <- Hlen1.
    apply (for_each_invariant (UNet.encode_index s (UNet.surface_of s) ff)
             (fun G : array => length G = length F1) l1)
      with (s := F1); [|reflexivity|exact Hl1].
    intros G k G' _ HG Hk. rewrite <- HG. eapply encode_index_length, Hk. }
  apply encode_index_Ok in Hindex as (p & cell & Hp & Hc & Hloop).
  exists p, cell. split; [exact Hp|]. split; [exact Hc|].
  intros node Hnode Hlt.
  destruct (for_each_elem _ _ _ _ _ Hnode Hloop)
    as (n1 & n2 & K1 & K2 & _ & Hn1 & Hvisit & _).
  rewrite <- HlenG, <- (corners_length _ _ _ _ _ Hn1).
  apply encode_node_cases in Hvisit
    as [[_ Hge]|[(_ & _ & v & Hv & _)|(_ & _ & Hslot & _)]].
  - lia.
  - eapply lookup_lt_Some, Hv.
  - exact Hslot.
Qed.

(** X8.  On the grid [compute_input] returns exactly when every forced node
    has a rest position on the surface, the grid's cell query returns a cell
    for that position, and the cell's corners below the node count are slots
    of the array. *)
Theorem compute_input_UNet_returns_iff (s : UNet.LiverTraining) :
  (exists F, UNet.compute_input s = Ok F) <-> forces_on_grid s.
Proof.
  split; [|apply compute_input_UNet_total].
  intros [F H]. eapply compute_input_UNet_needs_grid, H.
Qed.

(** ** What one force field writes on the grid *)

(** The slot's value after a visit of the corner loop to [nodes]. *)
Definition encoded (nb : nat) (f : vec3) (nodes : list nat) (j : nat) (v : vec3)
  : vec3 :=
  if bool_decide (j ∈ nodes /\ j < nb) && PrimFloat.eqb (norm v) 0 then f else v.

Lemma encoded_nil nb f j v : encoded nb f [] j v = v.
Proof.
  unfold encoded. rewrite bool_decide_eq_false_2; [reflexivity|].
  intros [H _]. inversion H.
Qed.

Lemma encoded_absent nb f a nodes j v :
  (j <> a \/ nb <= j \/ PrimFloat.eqb (norm v) 0 = false) ->
  encoded nb f (a :: nodes) j v = encoded nb f nodes j v.
Proof.
  intros H. unfold encoded.
  destruct (PrimFloat.eqb (norm v) 0) eqn:Hz; [|now rewrite !andb_false_r].
  rewrite !andb_true_r.
  destruct H as [H|[H|H]]; [| |discriminate].
  - rewrite (bool_decide_ext (j ∈ a :: nodes /\ j < nb) (j ∈ nodes /\ j < nb));
      [reflexivity|].
    rewrite elem_of_cons. intuition.
  - rewrite !bool_decide_eq_false_2; [reflexivity | lia | lia].
Qed.

Lemma encoded_own nb f nodes j : encoded nb f nodes j f = f.
Proof. unfold encoded. now destruct (_ && _). Qed.

(** The corner loop, slot by slot: a slot changes only if it is one of the
    corners, lies below the node count and holds a value of norm zero, and it
    then holds the force. *)
Lemma corners_effect nb f nodes (F F' : array) j :
  for_each (UNet.encode_node nb f) nodes F = Ok F' ->
  F' !! j = encoded nb f nodes j <$> F !! j.
Proof.
  revert F. induction nodes as [|a nodes IH]; intros F H.
  - simpl in H. injection H as <-.
    destruct (F !! j); simpl; [now rewrite encoded_nil | reflexivity].
  - apply for_each_cons in H as (G & Ha & Hrest).
    rewrite (IH _ Hrest).
    apply encode_node_cases in Ha
      as [[-> Hge]|[(-> & Hlt & v & Hv & Hz)|(-> & Hlt & Hlen & v & Hv & Hz)]].
    + destruct (F !! j) as [w|]; simpl; [|reflexivity].
      rewrite encoded_absent; [reflexivity|].
      destruct (decide (j = a)) as [->|]; auto.
    + destruct (F !! j) as [w|] eqn:Hw; simpl; [|reflexivity].
      rewrite encoded_absent; [reflexivity|].
      destruct (decide (j = a)) as [->|]; [|auto].
      right; right. congruence.
    + destruct (decide (j = a)) as [->|Hne].
      * rewrite list_lookup_insert_eq by exact Hlen. rewrite Hv. simpl.
        rewrite encoded_own. unfold encoded.
        rewrite bool_decide_eq_true_2, Hz; [reflexivity|].
        split; [left | exact Hlt].
      * rewrite list_lookup_insert_ne by congruence.
        destruct (F !! j) as [w|]; simpl; [|reflexivity].
        rewrite encoded_absent; auto.
Qed.

Section FieldEffect.
Variables (s : UNet.LiverTraining) (ff : UNet.ForceField).

Let mo := UNet.surface_of s.
Let nb := UNet.nb_nodes_regular_grid s.
Let f := UNet.force ff.

(** Slot [j] is a corner of the cell of one of the nodes [l]. *)
Definition reached (l : list nat) (j : nat) : Prop :=
  exists i p cell,
    i ∈ l /\ rest_position mo !! i = Some p /\
    UNet.cell_index_containing (UNet.regular_grid s) p = Ok cell /\
    j ∈ UNet.node_indices_of (UNet.regular_grid s) cell.

Lemma reached_cons i l j :
  reached (i :: l) j <-> reached [i] j \/ reached l j.
Proof.
  split.
  - intros (k & p & cell & Hk & H). apply elem_of_cons in Hk as [->|Hk].
    + left. exists i, p, cell. split; [left | exact H].
    + right. exists k, p, cell. auto.
  - intros [(k & p & cell & Hk & H)|(k & p & cell & Hk & H)];
      exists k, p, cell; (split; [|exact H]).
    + apply list_elem_of_singleton in Hk as ->. left.
    + now right.
Qed.

(** A slot that holds the field's force keeps it through the field's loop. *)
Lemma indices_keep_own l (F F' : array) j :
  F !! j = Some f ->
  for_each (UNet.encode_index s mo ff) l F = Ok F' -> F' !! j = Some f.
Proof.
  intros Hj H.
  apply (for_each_invariant (UNet.encode_index s mo ff)
           (fun G : array => G !! j = Some f) l) with (s := F);
    [|exact Hj|exact H].
  intros G i G' _ HG Hi. apply encode_index_Ok in Hi as (p & cell & _ & _ & Hloop).
  rewrite (corners_effect _ _ _ _ _ j Hloop), HG. simpl.
  now rewrite encoded_own.
Qed.

Lemma indices_effect l (F F' : array) j v :
  for_each (UNet.encode_index s mo ff) l F = Ok F' ->
  F !! j = Some v ->
  (reached l j /\ j < nb /\ PrimFloat.eqb (norm v) 0 = true -> F' !! j = Some f) /\
  (~ (reached l j /\ j < nb /\ PrimFloat.eqb (norm v) 0 = true) -> F' !! j = Some v).
Proof.
  revert F v. induction l as [|i l IH]; intros F v H Hv.
  - simpl in H. injection H as <-. split; [|auto].
    intros [(k & p & cell & Hk & _) _]. inversion Hk.
  - apply for_each_cons in H as (G & Hi & Hrest).
    apply encode_index_Ok in Hi as (p & cell & Hp & Hc & Hloop).
    pose proof (corners_effect _ _ _ _ _ j Hloop) as HG.
    rewrite Hv in HG. simpl in HG. unfold encoded in HG. revert HG.
    case_bool_decide as Hcase;
      [destruct Hcase as [Hin Hlt]; destruct (PrimFloat.eqb (norm v) 0) eqn:Hz
      |rename Hcase into Hout]; simpl; intros HG.
    + split; [intros _; eapply indices_keep_own; [exact HG | exact Hrest]|].
      intros Hnot. exfalso. apply Hnot. split; [|auto].
      exists i, p, cell. split; [left | auto].
    + destruct (IH _ _ Hrest HG) as [_ Hno].
      split; [intros (_ & _ & Hf); discriminate Hf|].
      intros _. apply Hno. intros (_ & _ & Hf). congruence.
    + destruct (IH _ _ Hrest HG) as [Hyes Hno]. split.
      * intros (Hr & Hlt & Hz). apply Hyes. split; [|auto].
        apply reached_cons in Hr as [(k & p' & cell' & Hk & Hp' & Hc' & Hin)|Hr];
          [|exact Hr].
        apply list_elem_of_singleton in Hk as ->.
        assert (p' = p) as -> by congruence.
        assert (cell' = cell) as -> by congruence.
        exfalso. apply Hout. auto.
      * intros Hnot. apply Hno. intros (Hr & Hlt & Hz). apply Hnot.
        split; [|auto]. apply reached_cons. now right.
Qed.

(** Whether a slot is reached can be decided once the loop has returned. *)
Lemma reached_dec l (F F' : array) j :
  for_each (UNet.encode_index s mo ff) l F = Ok F' -> reached l j \/ ~ reached l j.
Proof.
  revert F. induction l as [|i l IH]; intros F H.
  - right. intros (k & p & cell & Hk & _). inversion Hk.
  - apply for_each_cons in H as (G & Hi & Hrest).
    apply encode_index_Ok in Hi as (p & cell & Hp & Hc & _).
    destruct (decide (j ∈ UNet.node_indices_of (UNet.regular_grid s) cell))
      as [Hin|Hout].
    + left. exists i, p, cell. split; [left | auto].
    + destruct (IH _ Hrest) as [Hr|Hr].
      * left. apply reached_cons. now right.
      * right. intros Hcons. apply reached_cons in Hcons
          as [(k & p' & cell' & Hk & Hp' & Hc' & Hin)|Hcons]; [|auto].
        apply list_elem_of_singleton in Hk as ->.
        assert (p' = p) as -> by congruence.
        assert (cell' = cell) as -> by congruence. auto.
Qed.
End FieldEffect.

(** X9.  What one force field does to a slot of the array: the slot takes the
    field's force when it is a corner of a cell the field reaches, lies below
    the node count and held a value of norm zero; otherwise it keeps its
    value. *)
Theorem force_field_effect (s : UNet.LiverTraining) ff (F F' : array) j v :
  UNet.encode_field s (UNet.surface_of s) F ff = Ok F' ->
  F !! j = Some v ->
  (corner_of_field s ff j /\ j < UNet.nb_nodes_regular_grid s /\
   PrimFloat.eqb (norm v) 0 = true ->
   F' !! j = Some (UNet.force ff)) /\
  (~ (corner_of_field s ff j /\ j < UNet.nb_nodes_regular_grid s /\
      PrimFloat.eqb (norm v) 0 = true) ->
   F' !! j = Some v).
Proof.
  intros H Hv. exact (indices_effect s ff (UNet.indices ff) F F' j v H Hv).
Qed.

Lemma force_field_effect_witness :
  (corner_of_field (one_cell_scene [down_field]) down_field 0 /\ 0 < 1 /\
   PrimFloat.eqb (norm zero3) 0 = true ->
   [V3 0 (-1) 0] !! 0 = Some (V3 0 (-1) 0)) /\
  (~ (corner_of_field (one_cell_scene [down_field]) down_field 0 /\ 0 < 1 /\
      PrimFloat.eqb (norm zero3) 0 = true) ->
   [V3 0 (-1) 0] !! 0 = Some zero3).
Proof.
  apply (force_field_effect (one_cell_scene [down_field]) down_field
           [zero3] [V3 0 (-1) 0] 0 zero3); reflexivity.
Defined.

(** The scene with other force fields, as the engine's next step may leave it. *)
Definition with_force_field (s : UNet.LiverTraining) (ffs : list UNet.ForceField)
  : UNet.LiverTraining :=
  {| UNet.create_model_fem := UNet.create_model_fem s;
     UNet.f_surface_mo := UNet.f_surface_mo s;
     UNet.n_surface_mo := UNet.n_surface_mo s;
     UNet.f_sparse_grid_mo := UNet.f_sparse_grid_mo s;
     UNet.n_sparse_grid_mo := UNet.n_sparse_grid_mo s;
     UNet.force_field := ffs;
     UNet.regular_grid := UNet.regular_grid s;
     UNet.nb_nodes_regular_grid := UNet.nb_nodes_regular_grid s;
     UNet.data_size := UNet.data_size s;
     UNet.idx_sparse_to_regular := UNet.idx_sparse_to_regular s;
     UNet.regular_grid_rest_shape := UNet.regular_grid_rest_shape s |}.

(** Two fields with the same force on the same set of nodes. *)
Definition same_field (a b : UNet.ForceField) : Prop :=
  UNet.force a = UNet.force b /\
  forall i, i ∈ UNet.indices a <-> i ∈ UNet.indices b.

Lemma reached_same_nodes s (l l' : list nat) j :
  (forall i, i ∈ l <-> i ∈ l') -> reached s l j -> reached s l' j.
Proof.
  intros Hsame (i & p & cell & Hi & H). exists i, p, cell.
  split; [now apply Hsame | exact H].
Qed.

Lemma encode_field_same_field s a b (F Fa Fb : array) :
  same_field a b ->
  UNet.encode_field s (UNet.surface_of s) F a = Ok Fa ->
  UNet.encode_field s (UNet.surface_of s) F b = Ok Fb ->
  Fa = Fb.
Proof.
  intros [Hforce Hnodes] Ha Hb. apply list_eq. intros j.
  destruct (F !! j) as [v|] eqn:Hv.
  - destruct (indices_effect s a _ _ _ j v Ha Hv) as [Hyes_a Hno_a].
    destruct (indices_effect s b _ _ _ j v Hb Hv) as [Hyes_b Hno_b].
    destruct (reached_dec s a _ _ _ j Ha) as [Hr|Hr];
      [destruct (decide (j < UNet.nb_nodes_regular_grid s)) as [Hlt|Hge];
       [destruct (PrimFloat.eqb (norm v) 0) eqn:Hz|]|].
    + rewrite Hyes_a, Hyes_b; [congruence | |]; split; auto.
      eapply reached_same_nodes; eauto.
    + rewrite Hno_a, Hno_b; [reflexivity | |]; intros (_ & _ & Hf); discriminate Hf.
    + rewrite Hno_a, Hno_b; [reflexivity | |]; intros (_ & ? & _); contradiction.
    + rewrite Hno_a, Hno_b; [reflexivity | |]; intros (Hr' & _); apply Hr;
        [eapply reached_same_nodes; [|exact Hr']; intros i; symmetry; apply Hnodes
        |exact Hr'].
  - apply lookup_ge_None in Hv.
    rewrite !(proj2 (lookup_ge_None _ _)); [reflexivity | |].
    + now rewrite (encode_field_length _ _ _ _ _ Hb).
    + now rewrite (encode_field_length _ _ _ _ _ Ha).
Qed.

(** X10.  The input does not depend on how a force field lists its nodes:
    replacing every field by one with the same force on the same set of
    nodes, in any order and with any repetitions, gives the same array. *)
Theorem compute_input_ignores_index_order (s : UNet.LiverTraining) ffs' F :
  Forall2 same_field (UNet.force_field s) ffs' ->
  UNet.compute_input s = Ok F ->
  UNet.compute_input (with_force_field s ffs') = Ok F.
Proof.
  intros Hsame H.
  assert (Hgrid : forces_on_grid (with_force_field s ffs')).
  { pose proof (compute_input_UNet_needs_grid s F H) as Hg.
    intros ff' i Hff' Hi. simpl in Hff'.
    apply list_elem_of_lookup in Hff' as [k Hk].
    destruct (Forall2_lookup_r _ _ _ _ _ Hsame Hk) as (ff & Hff & _ & Hnodes).
    apply (Hg ff i); [eapply list_elem_of_lookup_2, Hff | now apply Hnodes]. }
  destruct (compute_input_UNet_total _ Hgrid) as [F' H'].
  rewrite H'. f_equal.
  unfold UNet.compute_input in H, H'. simpl in H'.
  change (UNet.surface_of (with_force_field s ffs')) with (UNet.surface_of s) in H'.
  change (UNet.encode_field (with_force_field s ffs'))
    with (UNet.encode_field s) in H'.
  clear Hgrid. revert H H'. generalize (zeros (UNet.data_size s)).
  induction Hsame as [|a b fs fs' Hab _ IH]; intros G H H'.
  - simpl in H, H'. congruence.
  - apply for_each_cons in H as (Ga & Ha & H).
    apply for_each_cons in H' as (Gb & Hb & H').
    assert (Gb = Ga) as -> by (symmetry; eapply encode_field_same_field; eauto).
    eapply IH; eauto.
Qed.

Definition down_twice : UNet.ForceField :=
  {| UNet.indices := [0; 0]; UNet.force := V3 0 (-1) 0 |}.

Lemma compute_input_ignores_index_order_witness :
  UNet.compute_input (with_force_field (one_cell_scene [down_field]) [down_twice])
  = Ok [V3 0 (-1) 0].
Proof.
  apply (compute_input_ignores_index_order (one_cell_scene [down_field])
           [down_twice] [V3 0 (-1) 0]).
  - constructor; [|constructor]. split; [reflexivity|].
    intros i. simpl. rewrite !elem_of_cons. tauto.
  - reflexivity.
Defined.

(** ** Where the entries of the input come from *)

(** X11.  On the grid, every entry of the input is zero or the force of a
    field that reaches that slot, and the slot is below the node count: a slot
    no field reaches, or one at or above the node count, holds zero. *)
Theorem grid_input_entries_come_from_fields (s : UNet.LiverTraining) F j v :
  UNet.compute_input s = Ok F ->
  F !! j = Some v ->
  v = zero3 \/
  exists ff, ff ∈ UNet.force_field s /\ v = UNet.force ff /\
             corner_of_field s ff j /\ j < UNet.nb_nodes_regular_grid s.
Proof.
  intros H. unfold UNet.compute_input in H. revert v.
  apply (for_each_invariant (UNet.encode_field s (UNet.surface_of s))
           (fun G : array => forall v, G !! j = Some v ->
              v = zero3 \/
              exists ff, ff ∈ UNet.force_field s /\ v = UNet.force ff /\
                         corner_of_field s ff j /\ j < UNet.nb_nodes_regular_grid s)
           (UNet.force_field s))
    with (s := zeros (UNet.data_size s)); [| |exact H].
  - intros G ff G' Hff HG Hstep v' Hv'.
    assert (exists v, G !! j = Some v) as [v Hv].
    { apply lookup_lt_is_Some_2. rewrite <- (encode_field_length _ _ _ _ _ Hstep).
      eapply lookup_lt_Some, Hv'. }
    destruct (indices_effect s ff _ _ _ j v Hstep Hv) as [Hyes Hno].
    destruct (reached_dec s ff _ _ _ j Hstep) as [Hr|Hr];
      [destruct (decide (j < UNet.nb_nodes_regular_grid s)) as [Hlt|Hge];
       [destruct (PrimFloat.eqb (norm v) 0) eqn:Hz|]|].
    + rewrite Hyes in Hv' by auto. injection Hv' as <-. right. exists ff. auto.
    + rewrite Hno in Hv' by (intros (_ & _ & Hf); discriminate Hf).
      injection Hv' as <-. auto.
    + rewrite Hno in Hv' by (intros (_ & ? & _); contradiction).
      injection Hv' as <-. auto.
    + rewrite Hno in Hv' by (intros (? & _); contradiction).
      injection Hv' as <-. auto.
  - intros v Hv. left. unfold zeros in Hv. now apply lookup_replicate in Hv as [-> _].
Qed.

Lemma grid_input_entries_come_from_fields_witness :
  V3 0 (-1) 0 = zero3 \/
  exists ff, ff ∈ [down_field; up_field] /\ V3 0 (-1) 0 = UNet.force ff /\
             corner_of_field (one_cell_scene [down_field; up_field]) ff 0 /\ 0 < 1.
Proof.
  apply (grid_input_entries_come_from_fields
           (one_cell_scene [down_field; up_field]) [V3 0 (-1) 0] 0 (V3 0 (-1) 0));
    reflexivity.
Defined.

Lemma assign_lookup_origin (idx : list nat) (vals a : array) k v :
  assign a idx vals !! k = Some v ->
  a !! k = Some v \/ exists p, idx !! p = Some k /\ vals !! p = Some v.
Proof.
  revert a vals. induction idx as [|i idx IH]; intros a [|w vals] H; simpl in H;
    auto.
  destruct (IH _ _ H) as [Hhere|(p & Hp & Hv)].
  - apply list_lookup_insert_Some in Hhere as [(-> & -> & _)|[_ Hk]]; [|auto].
    right. exists 0. auto.
  - right. exists (S p). auto.
Qed.



(** ** The step-end handler *)

(** The calls the environments make on the dataset and visualisation sinks. *)
Module Sinks.

(** The field type named in the schema. *)
Inductive py_type : Type := ndarray.

(** The visual model: [f_visu.position] and [f_visu.triangles]. *)
Record VisualModel : Type := {
  visu_position : array;
  triangles : list (nat * nat * nat)
}.

Inductive call : Type :=
| define_training_fields (fields : list (string * py_type))
| add_mesh (positions : array) (cells : list (nat * nat * nat)) (at_ : nat)
           (c : string)
| set_training_data (kwargs : list (string * array))
| update_mesh (object_id : nat) (positions : array)
| update_visualisation.

Definition init_database : list call :=
  [define_training_fields [("input"%string, ndarray);
                           ("ground_truth"%string, ndarray)]].

Definition init_visualization (f_visu : VisualModel) (instance_id : nat)
  : list call :=
  [add_mesh (visu_position f_visu) (triangles f_visu) instance_id "green"].

Definition update_visual (f_visu : VisualModel) : list call :=
  [update_mesh 0 (visu_position f_visu); update_visualisation].

(** [set_training_data(input=..., ground_truth=...)] then [update_visual()]:
    both arrays are computed, input first, before anything is sent. *)
Definition send_sample (input ground_truth : result array) (f_visu : VisualModel)
  : result (list call) :=
  let* input := input in
  let* ground_truth := ground_truth in
  Ok (set_training_data [("input"%string, input);
                         ("ground_truth"%string, ground_truth)]
        :: update_visual f_visu).

Definition onAnimateEndEvent_FC (s : FC.LiverTraining) (f_visu : VisualModel)
  : result (list call) :=
  send_sample (FC.compute_input s) (FC.compute_output s) f_visu.

Definition onAnimateEndEvent_UNet (s : UNet.LiverTraining) (f_visu : VisualModel)
  : result (list call) :=
  send_sample (UNet.compute_input s) (UNet.compute_output s) f_visu.

(** The names of the fields a call declares or sends. *)
Definition field_names (c : call) : list string :=
  match c with
  | define_training_fields fields => map fst fields
  | set_training_data kwargs => map fst kwargs
  | _ => []
  end.

End Sinks.

(** X13.  At every point of a session the step-end handler returns, and what
    it does is: send one sample, whose input and ground truth are the arrays
    [compute_input] and [compute_output] return, of the shapes fixed at
    initialisation and under the field names the schema declared; then update
    mesh 0 with the visual model's current positions; then refresh the
    visualisation. *)
Theorem step_end_sends_one_sample :
  (forall (s0 s : FC.LiverTraining) f_visu,
      scene_ok_FC s0 ->
      rtc step_FC (FC.onSimulationInitDoneEvent s0) s ->
      exists F U,
        Sinks.onAnimateEndEvent_FC s f_visu
        = Ok [Sinks.set_training_data [("input"%string, F);
                                       ("ground_truth"%string, U)];
              Sinks.update_mesh 0 (Sinks.visu_position f_visu);
              Sinks.update_visualisation] /\
        FC.compute_input s = Ok F /\ FC.compute_output s = Ok U /\
        shape_of F = length (position (FC.n_surface_mo s0)) /\
        shape_of U = length (position (FC.n_sparse_grid_mo s0)) /\
        Sinks.field_names (Sinks.set_training_data
                             [("input"%string, F); ("ground_truth"%string, U)])
        = flat_map Sinks.field_names Sinks.init_database) /\
  (forall (s0 s : UNet.LiverTraining) f_visu,
      scene_ok_UNet s0 ->
      rtc step_UNet s0 s ->
      exists F U,
        Sinks.onAnimateEndEvent_UNet s f_visu
        = Ok [Sinks.set_training_data [("input"%string, F);
                                       ("ground_truth"%string, U)];
              Sinks.update_mesh 0 (Sinks.visu_position f_visu);
              Sinks.update_visualisation] /\
        UNet.compute_input s = Ok F /\ UNet.compute_output s = Ok U /\
        shape_of F = UNet.data_size s0 /\
        shape_of U = UNet.data_size s0 /\
        Sinks.field_names (Sinks.set_training_data
                             [("input"%string, F); ("ground_truth"%string, U)])
        = flat_map Sinks.field_names Sinks.init_database).
Proof.
  split.
  - intros s0 s f_visu Hok Hrun.
    assert (Hinv : session_inv_FC (length (position (FC.n_surface_mo s0)))
                                  (length (position (FC.n_sparse_grid_mo s0))) s).
    { eapply rtc_invariant; [now apply init_inv_FC | | exact Hrun].
      intros y y'. apply step_inv_FC. }
    destruct (session_inv_FC_shapes _ _ _ Hinv) as [(F & HF & HsF) (U & HU & HsU)].
    exists F, U. unfold Sinks.onAnimateEndEvent_FC, Sinks.send_sample.
    rewrite HF, HU. simpl. auto 10.
  - intros s0 s f_visu Hok Hrun.
    assert (Hinv : session_inv_UNet (UNet.data_size s0) s).
    { eapply rtc_invariant; [split; [reflexivity | exact Hok] | | exact Hrun].
      intros y y'. apply step_inv_UNet. }
    destruct (session_inv_UNet_shapes _ _ Hinv) as [(F & HF & HsF) (U & HU & HsU)].
    exists F, U. unfold Sinks.onAnimateEndEvent_UNet, Sinks.send_sample.
    rewrite HF, HU. simpl. auto 10.
Qed.

Definition liver_visu : Sinks.VisualModel :=
  {| Sinks.visu_position := [V3 1 2 0]; Sinks.triangles := [(0, 0, 0)] |}.

Lemma step_end_sends_one_sample_witness :
  (exists F U,
      Sinks.onAnimateEndEvent_FC after_prediction_FC liver_visu
      = Ok [Sinks.set_training_data [("input"%string, F);
                                     ("ground_truth"%string, U)];
            Sinks.update_mesh 0 [V3 1 2 0];
            Sinks.update_visualisation] /\
      FC.compute_input after_prediction_FC = Ok F /\
      FC.compute_output after_prediction_FC = Ok U /\
      shape_of F = 1 /\ shape_of U = 1 /\
      Sinks.field_names (Sinks.set_training_data
                           [("input"%string, F); ("ground_truth"%string, U)])
      = flat_map Sinks.field_names Sinks.init_database) /\
  (exists F U,
      Sinks.onAnimateEndEvent_UNet after_prediction_UNet liver_visu
      = Ok [Sinks.set_training_data [("input"%string, F);
                                     ("ground_truth"%string, U)];
            Sinks.update_mesh 0 [V3 1 2 0];
            Sinks.update_visualisation] /\
      UNet.compute_input after_prediction_UNet = Ok F /\
      UNet.compute_output after_prediction_UNet = Ok U /\
      shape_of F = 4 /\ shape_of U = 4 /\
      Sinks.field_names (Sinks.set_training_data
                           [("input"%string, F); ("ground_truth"%string, U)])
      = flat_map Sinks.field_names Sinks.init_database).
Proof.
  split.
  - apply (proj1 step_end_sends_one_sample pulled_scene_FC
             after_prediction_FC liver_visu).
    + exact pulled_scene_FC_ok.
    + exact session_run_FC.
  - apply (proj2 step_end_sends_one_sample four_corner_scene
             after_prediction_UNet liver_visu).
    + exact four_corner_scene_ok.
    + exact session_run_UNet.
Defined.

(** ** The launcher, continued *)

Section LauncherMore.
Import Launcher.
Open Scope string_scope.

(** Splitting on a non-empty separator loses nothing: joining the pieces
    with the separator gives the string back. *)
Theorem split_join_round_trip sep s :
  sep <> "" -> String.concat sep (split sep s) = s.
Proof.
  intros Hsep. destruct sep as [|c sep]; [contradiction|]. apply concat_split.
Qed.

(** X14.  The parsed database is [None] for the literal [None] only, and is
    never an empty list: anything else parses to at least one name. *)
Theorem visualization_db_never_empty arg :
  (parse_visualization_db arg = None <-> arg = "None") /\
  (forall names, parse_visualization_db arg = Some names -> names <> []).
Proof.
  unfold parse_visualization_db.
  destruct (String.eqb_spec arg "None") as [->|Hne]; split.
  - tauto.
  - discriminate.
  - split; [discriminate | contradiction].
  - intros names [= <-].
    destruct (split_from_cons ", " 0 "" (slice 1 (-1) arg)) as (first & rest & H).
    unfold split. rewrite H. discriminate.
Qed.

(** A name in quotes, and the bracketed list of quoted names. *)
Definition quoted (name : string) : string := "'" ++ name ++ "'".

Definition list_literal (names : list string) : string :=
  "[" ++ String.concat ", " (map quoted names) ++ "]".

(** Some occurrence of [sep] in [s]. *)
Fixpoint occurs (sep s : string) : bool :=
  String.prefix sep s ||
  match s with
  | EmptyString => false
  | String _ s' => occurs sep s'
  end.

(** No occurrence of [", "] starts inside [q] when [q] is followed by [r]. *)
Fixpoint unbroken (q r : string) : Prop :=
  match q with
  | EmptyString => True
  | String c q' => String.prefix ", " (String c (q' ++ r)) = false /\ unbroken q' r
  end.

Lemma split_from_unbroken q r piece :
  unbroken q r ->
  split_from ", " 0 piece (q ++ r) = split_from ", " 0 (piece ++ q) r.
Proof.
  revert piece. induction q as [|c q IH]; intros piece H.
  - simpl. now rewrite append_empty_r.
  - destruct H as [Hc Hq]. change (String c q ++ r) with (String c (q ++ r)).
    cbn [split_from]. rewrite Hc, IH by exact Hq.
    now rewrite append_assoc.
Qed.

Lemma prefix_cons c sep d s :
  String.prefix (String c sep) (String d s)
  = if ascii_dec c d then String.prefix sep s else false.
Proof. reflexivity. Qed.

Lemma prefix_empty s : String.prefix "" s = true.
Proof. destruct s; reflexivity. Qed.

Lemma unbroken_name name r :
  occurs ", " name = false -> unbroken (name ++ "'") r.
Proof.
  induction name as [|c name IH]; intros H.
  - split; [reflexivity | exact I].
  - cbn [occurs] in H. apply orb_false_elim in H as [Hhere Hrest].
    change (unbroken (String c (name ++ "'")) r). cbn [unbroken].
    split; [|now apply IH].
    rewrite prefix_cons in Hhere |- *.
    destruct (ascii_dec "," c); [|reflexivity].
    destruct name as [|d name]; [reflexivity|].
    change (String.prefix " " (String d ((name ++ "'") ++ r)) = false).
    rewrite prefix_cons in Hhere |- *.
    destruct (ascii_dec " " d); [|reflexivity].
    rewrite prefix_empty in Hhere. discriminate.
Qed.

Lemma split_from_separator piece r :
  split_from ", " 0 piece (", " ++ r) = piece :: split_from ", " 0 "" r.
Proof. destruct r; reflexivity. Qed.

Lemma unbroken_quoted name r :
  occurs ", " name = false -> unbroken (quoted name) r.
Proof.
  intros H. unfold quoted. split; [reflexivity|].
  now apply unbroken_name.
Qed.

Lemma split_quoted_names names piece :
  names <> [] ->
  Forall (fun name => occurs ", " name = false) names ->
  split_from ", " 0 piece (String.concat ", " (map quoted names))
  = match map quoted names with
    | [] => []
    | q :: qs => (piece ++ q) :: qs
    end.
Proof.
  intros Hne Hall. revert piece.
  induction Hall as [|name names Hname Hall IH]; intros piece; [contradiction|].
  destruct names as [|next names].
  - change (String.concat ", " (map quoted [name])) with (quoted name).
    rewrite <- (append_empty_r (quoted name)) at 1.
    rewrite split_from_unbroken by now apply unbroken_quoted. reflexivity.
  - change (map quoted (name :: next :: names))
      with (quoted name :: quoted next :: map quoted names).
    rewrite concat_two, split_from_unbroken by now apply unbroken_quoted.
    rewrite split_from_separator.
    change (quoted next :: map quoted names) with (map quoted (next :: names)).
    rewrite IH by discriminate. reflexivity.
Qed.

Lemma drop_last_append_char s c : drop_last (s ++ String c "") = s.
Proof.
  induction s as [|d s IH]; [reflexivity|].
  simpl. rewrite IH. destruct s; reflexivity.
Qed.

Lemma strip_ends_quoted name : strip_ends (quoted name) = name.
Proof. unfold strip_ends, quoted. simpl. apply drop_last_append_char. Qed.

(** X15.  A bracketed, comma-and-space separated list of quoted names parses
    back to the names, when there is at least one name and none contains the
    separator. *)
Theorem list_literal_round_trip names :
  names <> [] ->
  Forall (fun name => occurs ", " name = false) names ->
  parse_visualization_db (list_literal names) = Some names.
Proof.
  intros Hne Hall. unfold parse_visualization_db.
  destruct (String.eqb_spec (list_literal names) "None") as [Heq|_];
    [discriminate Heq|].
  f_equal. rewrite slice_strip_ends.
  assert (Hbody : strip_ends (list_literal names)
                  = String.concat ", " (map quoted names)).
  { unfold strip_ends, list_literal. simpl. apply drop_last_append_char. }
  rewrite Hbody. unfold split. rewrite split_quoted_names by assumption.
  rewrite (map_ext _ _ slice_strip_ends).
  destruct names as [|name names]; [contradiction|].
  simpl. rewrite strip_ends_quoted. f_equal.
  rewrite map_map. rewrite (map_ext _ id strip_ends_quoted). apply map_id.
Qed.

(** *** What splitting on the separator yields *)

Lemma unbroken_weaken q r : unbroken q r -> unbroken q "".
Proof.
  induction q as [|c q IH]; [auto|]. intros [Hc Hq]. split; [|now apply IH].
  rewrite prefix_cons in Hc |- *. destruct (ascii_dec "," c); [|reflexivity].
  destruct q as [|d q]; [reflexivity|].
  change (String.prefix " " (String d (q ++ r)) = false) in Hc.
  change (String.prefix " " (String d (q ++ "")) = false).
  rewrite prefix_cons in Hc |- *. destruct (ascii_dec " " d); [|reflexivity].
  rewrite prefix_empty in Hc. discriminate.
Qed.

Lemma unbroken_snoc piece c s :
  unbroken piece (String c s) -> String.prefix ", " (String c s) = false ->
  unbroken (piece ++ String c "") s.
Proof.
  intros Hpiece Hc. induction piece as [|d piece IH].
  - split; [exact Hc | exact I].
  - destruct Hpiece as [Hd Hpiece].
    change (unbroken (String d (piece ++ String c "")) s). cbn [unbroken].
    split; [|now apply IH].
    rewrite append_assoc. exact Hd.
Qed.

Lemma skip_chars_empty k : skip_chars k "" = "".
Proof. destruct k; reflexivity. Qed.

(** No piece that [split] returns contains the separator. *)
Lemma split_from_unbroken_pieces s k piece :
  unbroken piece (skip_chars k s) ->
  Forall (fun p => unbroken p "") (split_from ", " k piece s).
Proof.
  revert k piece. induction s as [|c s IH]; intros k piece H.
  - rewrite skip_chars_empty in H. repeat constructor. exact H.
  - destruct k as [|k]; [|apply IH; exact H].
    cbn [skip_chars] in H. cbn [split_from].
    destruct (String.prefix ", " (String c s)) eqn:Hc.
    + constructor; [eapply unbroken_weaken, H|]. apply IH. destruct s; exact I.
    + apply IH. cbn [skip_chars]. now apply unbroken_snoc.
Qed.

Lemma unbroken_occurs p : unbroken p "" <-> occurs ", " p = false.
Proof.
  induction p as [|c p IH].
  - split; [reflexivity | intros _; exact I].
  - cbn [unbroken occurs]. rewrite append_empty_r, IH.
    split; [intros [-> ->]; reflexivity | apply orb_false_elim].
Qed.

(** A piece without the separator, followed by nothing or by a separator,
    holds no start of an occurrence. *)
Lemma unbroken_before_separator p r :
  occurs ", " p = false -> (r = "" \/ exists r', r = ", " ++ r') ->
  unbroken p r.
Proof.
  intros Hp Hr. induction p as [|c p IH]; [exact I|].
  cbn [occurs] in Hp. apply orb_false_elim in Hp as [Hhere Hrest].
  split; [|now apply IH].
  rewrite prefix_cons in Hhere |- *. destruct (ascii_dec "," c); [|reflexivity].
  destruct p as [|d p].
  - destruct Hr as [->|[r' ->]]; reflexivity.
  - change (String.prefix " " (String d (p ++ r)) = false).
    rewrite prefix_cons in Hhere |- *. destruct (ascii_dec " " d); [|reflexivity].
    rewrite prefix_empty in Hhere. discriminate.
Qed.

(** Pieces without the separator, joined by it, are the pieces found. *)
Lemma split_joined_pieces pieces piece :
  Forall (fun p => occurs ", " p = false) pieces ->
  split_from ", " 0 piece (String.concat ", " pieces)
  = match pieces with
    | [] => [piece]
    | p :: ps => (piece ++ p) :: ps
    end.
Proof.
  intros Hall. revert piece.
  induction Hall as [|p ps Hp Hall IH]; intros piece; [reflexivity|].
  destruct ps as [|next ps].
  - change (String.concat ", " [p]) with p.
    rewrite <- (append_empty_r p) at 1.
    rewrite split_from_unbroken by (apply unbroken_before_separator; auto).
    reflexivity.
  - rewrite concat_two, split_from_unbroken
      by (apply unbroken_before_separator; eauto).
    rewrite split_from_separator, IH. reflexivity.
Qed.

(** C8.  The literal [None] parses to no database.  Any other argument, with
    its first and last character removed, is cut at every [", "]: it is its
    pieces joined by [", "], no piece contains [", "], and the parsed value
    lists the pieces in order, each with its own first and last character
    removed.  Every such way of cutting the argument gives the parsed value. *)
Theorem visualization_db_parsing arg :
  (arg = "None" -> parse_visualization_db arg = None) /\
  (arg <> "None" ->
   exists pieces,
     parse_visualization_db arg = Some (map strip_ends pieces) /\
     pieces <> [] /\
     String.concat ", " pieces = strip_ends arg /\
     Forall (fun piece => occurs ", " piece = false) pieces) /\
  (forall pieces,
      arg <> "None" ->
      pieces <> [] ->
      Forall (fun piece => occurs ", " piece = false) pieces ->
      String.concat ", " pieces = strip_ends arg ->
      parse_visualization_db arg = Some (map strip_ends pieces)).
Proof.
  assert (Hparse : arg <> "None" ->
                   parse_visualization_db arg
                   = Some (map strip_ends (split ", " (strip_ends arg)))).
  { intros Hne. unfold parse_visualization_db.
    destruct (String.eqb_spec arg "None") as [->|_]; [contradiction|].
    rewrite slice_strip_ends. f_equal.
    apply map_ext. intros piece. apply slice_strip_ends. }
  split; [|split].
  - intros ->. reflexivity.
  - intros Hne. exists (split ", " (strip_ends arg)).
    split; [now apply Hparse|]. split; [|split].
    + destruct (split_from_cons ", " 0 "" (strip_ends arg)) as (p & ps & H).
      unfold split. rewrite H. discriminate.
    + apply concat_split.
    + unfold split.
      eapply Forall_impl; [apply split_from_unbroken_pieces; exact I|].
      intros p. apply unbroken_occurs.
  - intros pieces Hne Hpieces Hfree Hjoin. rewrite Hparse by exact Hne.
    rewrite <- Hjoin. unfold split. rewrite split_joined_pieces by exact Hfree.
    destruct pieces; [contradiction | reflexivity].
Qed.
End LauncherMore.

Lemma visualization_db_parsing_witness :
  Launcher.parse_visualization_db "['Dataset', 'Visu']"
  = Some ["Dataset"; "Visu"]%string.
Proof.
  apply (proj2 (proj2 (visualization_db_parsing "['Dataset', 'Visu']"))
           ["'Dataset'"; "'Visu'"]%string).
  - intros H. discriminate H.
  - discriminate.
  - repeat constructor.
  - reflexivity.
Defined.

Lemma split_join_round_trip_witness :
  String.concat ", " (Launcher.split ", " "'Dataset', 'Visu'")
  = "'Dataset', 'Visu'"%string.
Proof. apply (split_join_round_trip ", "). discriminate. Defined.

Lemma list_literal_round_trip_witness :
  Launcher.parse_visualization_db (list_literal ["Dataset"; "Visu"]%string)
  = Some ["Dataset"; "Visu"]%string.
Proof.
  apply (list_literal_round_trip ["Dataset"; "Visu"]%string).
  - discriminate.
  - repeat constructor.
Defined.

Section LauncherPaths.
Import Launcher.
Open Scope string_scope.

(** The character [c] occurs in [s]. *)
Fixpoint has_char (c : ascii) (s : string) : bool :=
  match s with
  | EmptyString => false
  | String d s' => if ascii_dec c d then true else has_char c s'
  end.

Lemma split_from_char c piece d s :
  split_from (String c "") 0 piece (String d s)
  = if ascii_dec c d then piece :: split_from (String c "") 0 "" s
    else split_from (String c "") 0 (piece ++ String d "") s.
Proof.
  cbn [split_from]. rewrite prefix_cons, prefix_empty.
  destruct (ascii_dec c d); reflexivity.
Qed.

Lemma split_from_no_char c piece s :
  has_char c s = false -> split_from (String c "") 0 piece s = [piece ++ s].
Proof.
  revert piece. induction s as [|d s IH]; intros piece H.
  - simpl. now rewrite append_empty_r.
  - rewrite split_from_char. cbn [has_char] in H.
    destruct (ascii_dec c d); [discriminate|].
    rewrite IH by exact H. now rewrite append_assoc.
Qed.

(** The last piece of a path is what follows its last separator. *)
Lemma last_split_path c piece dir base :
  List.last (split_from (String c "") 0 piece (dir ++ String c base)) ""
  = List.last (split_from (String c "") 0 "" base) "".
Proof.
  revert piece. induction dir as [|d dir IH]; intros piece.
  - change ("" ++ String c base) with (String c base).
    rewrite split_from_char. destruct (ascii_dec c c); [|contradiction].
    destruct (split_from_cons (String c "") 0 "" base) as (first & rest & ->).
    reflexivity.
  - change (String d dir ++ String c base) with (String d (dir ++ String c base)).
    rewrite split_from_char. destruct (ascii_dec c d); [|apply IH].
    destruct (split_from_cons (String c "") 0 "" (dir ++ String c base))
      as (first & rest & Hsplit).
    rewrite <- (IH ""), Hsplit. reflexivity.
Qed.

Lemma length_append (a b : string) :
  String.length (a ++ b) = String.length a + String.length b.
Proof. induction a as [|c a IH]; simpl; [reflexivity | now rewrite IH]. Qed.

Lemma substring_append (a b : string) :
  substring 0 (String.length a) (a ++ b) = a.
Proof.
  induction a as [|c a IH]; [destruct b; reflexivity|].
  simpl. now rewrite IH.
Qed.

(** The slice [s[:-3]] removes a three-character ending. *)
Lemma slice_drops_extension name ext :
  String.length ext = 3 -> slice 0 (-3) (name ++ ext) = name.
Proof.
  intros Hext. unfold slice, slice_bound. rewrite length_append, Hext.
  change (0 <? 0)%Z with false. change (-3 <? 0)%Z with true. cbv iota.
  change (Z.to_nat 0) with 0. rewrite Nat.min_0_l, Nat.sub_0_r.
  replace (Z.to_nat (Z.max (-3 + Z.of_nat (String.length name + 3)) 0))
    with (String.length name) by lia.
  apply substring_append.
Qed.

(** X16.  The module imported is named after the file: for a path whose last
    component is a name followed by a three-character extension, with or
    without directories before it, the module name is that name. *)
Theorem module_name_is_file_name host dir name ext :
  has_char (sep host) (name ++ ext) = false ->
  String.length ext = 3 ->
  module_name_of host (dir ++ String (sep host) (name ++ ext)) = name /\
  module_name_of host (name ++ ext) = name.
Proof.
  intros Hbase Hext. unfold module_name_of, split. split.
  - rewrite last_split_path, split_from_no_char by exact Hbase.
    simpl. now apply slice_drops_extension.
  - rewrite split_from_no_char by exact Hbase.
    simpl. now apply slice_drops_extension.
Qed.

(** The call [TcpIpClient(...)] the arguments lead to: they are seven, the
    import of the named class returns and the three numbers parse. *)
Definition client_requested (host : Host) (args : list string)
    (client : ClientArgs) : Prop :=
  exists a1 a2 a3 a4 a5 a6 a7,
    args = [a1; a2; a3; a4; a5; a6; a7] /\
    import_from host (module_name_of host a1) a2 = Ok tt /\
    int host a4 = Ok (port client) /\
    int host a5 = Ok (instance_id client) /\
    int host a6 = Ok (instance_nb client) /\
    ip_address client = a3 /\
    visualization_db client = parse_visualization_db a7.

(** The constructor call recorded for a client. *)
Definition constructor_call (client : ClientArgs) : event :=
  NewClient (ip_address client) (port client) (instance_id client)
            (instance_nb client) (visualization_db client).

Ltac no_such_call H :=
  repeat (apply elem_of_cons in H as [H|H]; [discriminate H|]); inversion H.

Ltac open_request H :=
  let Hargs := fresh "Hargs" in
  destruct H as (? & ? & ? & ? & ? & ? & ? & Hargs & ? & ? & ? & ? & ? & ?);
  injection Hargs as <- <- <- <- <- <- <-.

End LauncherPaths.

Lemma module_name_is_file_name_witness :
  Launcher.module_name_of posix "/home/demos/LiverTraining.py" = "LiverTraining"%string /\
  Launcher.module_name_of posix "LiverTraining.py" = "LiverTraining"%string.
Proof.
  apply (module_name_is_file_name posix "/home/demos" "LiverTraining" ".py");
    reflexivity.
Defined.

(** ** The prediction model after a prediction *)

Lemma take_length (a : array) (idx : list nat) r :
  take a idx = Ok r -> length r = length idx.
Proof.
  revert r. induction idx as [|i idx IH]; intros r H; simpl in H.
  - now injection H as <-.
  - destruct (getitem a i) as [v|]; simpl in H; [|discriminate].
    destruct (take a idx) as [r'|]; simpl in H; [|discriminate].
    injection H as <-. simpl. now rewrite (IH r').
Qed.

(** X18.  A prediction that is accepted leaves the prediction model with as
    many positions as rest positions: on coincident representations when the
    rest positions fill the declared output shape, on the grid when there is
    one rest position per table entry. *)
Theorem prediction_keeps_node_count :
  (forall (s s' : FC.LiverTraining) prediction,
      FC.output_size s = Some (length (rest_position (FC.n_sparse_grid_mo s))) ->
      FC.apply_prediction s prediction = Ok s' ->
      length (position (FC.n_sparse_grid_mo s'))
      = length (rest_position (FC.n_sparse_grid_mo s'))) /\
  (forall (s s' : UNet.LiverTraining) prediction,
      length (rest_position (UNet.n_sparse_grid_mo s))
      = length (UNet.idx_sparse_to_regular s) ->
      UNet.apply_prediction s prediction = Ok s' ->
      length (position (UNet.n_sparse_grid_mo s'))
      = length (rest_position (UNet.n_sparse_grid_mo s'))).
Proof.
  split.
  - intros s s' prediction Hout H. unfold FC.apply_prediction in H.
    rewrite Hout in H. simpl in H. unfold reshape in H.
    destruct (Nat.eqb_spec (length prediction)
                (size_of (length (rest_position (FC.n_sparse_grid_mo s)))))
      as [Hlen|]; simpl in H; [|discriminate].
    unfold add in H. rewrite elementwise_same_length in H
      by now rewrite length_rows_of.
    simpl in H. injection H as <-. simpl.
    apply zip_with_same_length. now rewrite length_rows_of.
  - intros s s' prediction Hrest H. unfold UNet.apply_prediction in H.
    destruct (reshape prediction (UNet.data_size s)) as [U|]; simpl in H;
      [|discriminate].
    destruct (take U (UNet.idx_sparse_to_regular s)) as [r|] eqn:Hr; simpl in H;
      [|discriminate].
    apply take_length in Hr.
    unfold add in H. rewrite elementwise_same_length in H by congruence.
    simpl in H. injection H as <-. simpl.
    apply zip_with_same_length. congruence.
Qed.

Lemma prediction_keeps_node_count_witness :
  length (position (UNet.n_sparse_grid_mo
                      (UNet.set_n_sparse_position half_mapped_scene [V3 2 2 3])))
  = length (rest_position (UNet.n_sparse_grid_mo
                      (UNet.set_n_sparse_position half_mapped_scene [V3 2 2 3]))).
Proof.
  apply (proj2 prediction_keeps_node_count half_mapped_scene
           (UNet.set_n_sparse_position half_mapped_scene [V3 2 2 3])
           [1; 2; 3; 4; 5; 6]%float); reflexivity.
Defined.
